(** * Photon: the end-to-end-encryption vault and its session state machine

    A shallow embedding of [src/lib/crypto.ts] (packed AES-GCM ciphertexts,
    deterministic salt, KEM wrappers) and of the two [AuthProvider]
    components ([context/AuthContext.tsx] and its decoy-aware successor),
    followed by the properties of the specification that concern them.

    Conventions.
    - A JavaScript string is its sequence of UTF-16 code units ([jsstring]).
    - A [Uint8Array] is a [list byte].
    - A rejected promise / thrown exception is [Err e]; a fulfilled one [Ok a].
    - Platform functions ([btoa], [atob], [TextEncoder], [TextDecoder],
      SHA-256) are written out after the standards that define them; the
      ciphers (AES-GCM, PBKDF2, ML-KEM) are parameters.
    - An [async] function of the component is a function from the system
      (component state, Firestore, identity provider, random source,
      pending network faults, trace of calls) to a result and a system.
      It reads the component state through the closure of the render that
      created it and writes it through the setters; one operation runs at
      a time. *)

From Stdlib Require Import ZArith NArith Lia List String Ascii Bool.
From Stdlib.Strings Require Import Byte.
From stdpp Require Import base option list gmap.

Local Open Scope N_scope.

(* ================================================================== *)
(** * Part I. Definitions *)
(* ================================================================== *)

(** ** Exceptions and promise results *)

Inductive error : Type :=
  | Error (message : string)        (* [new Error(message)] thrown by the application *)
  | DOMException (name : string)    (* thrown by the web platform *)
  | FirebaseError (code : string)   (* a rejected Firebase call *)
  | SyntaxError.                    (* [JSON.parse] on malformed text *)

Inductive result (A : Type) : Type :=
  | Ok (a : A)
  | Err (e : error).
Arguments Ok {A} a.
Arguments Err {A} e.

Definition is_ok {A} (r : result A) : bool :=
  match r with Ok _ => true | Err _ => false end.

Global Instance result_ret : MRet result := fun A a => Ok a.
Global Instance result_bind : MBind result := fun A B k r =>
  match r with Ok a => k a | Err e => Err e end.
Global Instance result_fmap : FMap result := fun A B f r =>
  match r with Ok a => Ok (f a) | Err e => Err e end.

(** ** JavaScript strings and byte arrays *)

Definition jsstring : Type := list N.
Definition Uint8Array : Type := list byte.

Global Instance byte_eq_dec : EqDecision byte := fun x y =>
  match Byte.eqb x y as b return Byte.eqb x y = b -> Decision (x = y) with
  | true => fun E => left (Byte.byte_dec_bl x y E)
  | false => fun E => right (fun H : x = y =>
      eq_ind true (fun b => if b then True else False) I false
             (eq_trans (eq_sym (Byte.byte_dec_lb H)) E))
  end eq_refl.

Global Instance jsstring_eq_dec : EqDecision jsstring := list_eq_dec.
Global Instance jsstring_countable : Countable jsstring := list_countable.

(** A value used as a condition: the empty string is falsy. *)
Definition truthy (s : jsstring) : bool :=
  match s with [] => false | _ :: _ => true end.

(** A Rocq string literal read as a JavaScript string (Latin-1 range). *)
Definition js (s : string) : jsstring :=
  List.map N_of_ascii (list_ascii_of_string s).

Definition byte_of_N (n : N) : byte :=
  match Byte.of_N (n mod 256) with Some b => b | None => x00 end.

(** [String.fromCharCode(array[i])] for every element, concatenated. *)
Definition fromCharCodes (array : Uint8Array) : jsstring :=
  List.map Byte.to_N array.

(** [bytes[i] = binaryString.charCodeAt(i)]: a store into a [Uint8Array]
    keeps the low eight bits. *)
Definition charCodes (binaryString : jsstring) : Uint8Array :=
  List.map byte_of_N binaryString.

(** [s.split(sep)] for a one-character separator. *)
Fixpoint split (sep : N) (s : jsstring) : list jsstring :=
  match s with
  | [] => [[]]
  | c :: s' =>
      if c =? sep then [] :: split sep s'
      else match split sep s' with
           | [] => [[c]]
           | p :: ps => (c :: p) :: ps
           end
  end.

Definition colon : N := 58.

(** ** Base64: [window.btoa] and [window.atob] *)

Module Base64.

Definition pad : N := 61.

Definition char_of_sextet (s : N) : N :=
  if s <? 26 then 65 + s
  else if s <? 52 then 97 + (s - 26)
  else if s <? 62 then 48 + (s - 52)
  else if s =? 62 then 43
  else 47.

Definition sextet_of_char (c : N) : option N :=
  if (65 <=? c) && (c <=? 90) then Some (c - 65)
  else if (97 <=? c) && (c <=? 122) then Some (c - 97 + 26)
  else if (48 <=? c) && (c <=? 57) then Some (c - 48 + 52)
  else if c =? 43 then Some 62
  else if c =? 47 then Some 63
  else None.

(** The bytes cut into groups of six bits, most significant first; a
    last group that is short is filled with zero bits. *)
Fixpoint sextets_of_bytes (bs : Uint8Array) : list N :=
  match bs with
  | [] => []
  | [a] =>
      let n := Byte.to_N a in
      [n / 4; n mod 4 * 16]
  | [a; b] =>
      let n := Byte.to_N a * 256 + Byte.to_N b in
      [n / 1024; n / 16 mod 64; n mod 16 * 4]
  | a :: b :: c :: rest =>
      let n := Byte.to_N a * 65536 + Byte.to_N b * 256 + Byte.to_N c in
      n / 262144 :: n / 4096 mod 64 :: n / 64 mod 64 :: n mod 64
      :: sextets_of_bytes rest
  end.

Definition padding (bs : Uint8Array) : jsstring :=
  repeat pad ((3 - length bs mod 3) mod 3)%nat.

Definition encode (bs : Uint8Array) : jsstring :=
  List.map char_of_sextet (sextets_of_bytes bs) ++ padding bs.

Definition is_ascii_whitespace (c : N) : bool :=
  (c =? 9) || (c =? 10) || (c =? 12) || (c =? 13) || (c =? 32).

(** "If the length divides by 4 leaving no remainder and the data ends
    with one or two [=], remove them." *)
Definition strip_padding (data : jsstring) : jsstring :=
  if (length data mod 4 =? 0)%nat then
    match rev data with
    | c1 :: r1 =>
        if c1 =? pad then
          match r1 with
          | c2 :: r2 => if c2 =? pad then rev r2 else rev r1
          | [] => rev r1
          end
        else data
    | [] => data
    end
  else data.

Fixpoint sextets (data : jsstring) : option (list N) :=
  match data with
  | [] => Some []
  | c :: data' =>
      match sextet_of_char c, sextets data' with
      | Some s, Some l => Some (s :: l)
      | _, _ => None
      end
  end.

(** Groups of four sextets give three bytes; a tail of three gives two
    bytes and a tail of two gives one, the spare low bits discarded. *)
Fixpoint bytes_of_sextets (l : list N) : Uint8Array :=
  match l with
  | a :: b :: c :: d :: rest =>
      let n := ((a * 64 + b) * 64 + c) * 64 + d in
      byte_of_N (n / 65536) :: byte_of_N (n / 256) :: byte_of_N n
      :: bytes_of_sextets rest
  | [a; b; c] =>
      let n := (a * 64 + b) * 64 + c in
      [byte_of_N (n / 1024); byte_of_N (n / 4)]
  | [a; b] => [byte_of_N ((a * 64 + b) / 16)]
  | _ => []
  end.

(** The forgiving-base64 decode of the HTML standard. *)
Definition decode (s : jsstring) : option Uint8Array :=
  let data := List.filter (fun c => negb (is_ascii_whitespace c)) s in
  let data := strip_padding data in
  if (length data mod 4 =? 1)%nat then None
  else option_map bytes_of_sextets (sextets data).

Definition btoa (binaryString : jsstring) : result jsstring :=
  if forallb (fun c => c <=? 255) binaryString
  then Ok (encode (charCodes binaryString))
  else Err (DOMException "InvalidCharacterError").

Definition atob (base64 : jsstring) : result jsstring :=
  match decode base64 with
  | Some bs => Ok (fromCharCodes bs)
  | None => Err (DOMException "InvalidCharacterError")
  end.

End Base64.

(** [u8ToB64] and [b64ToU8] of [crypto.ts]. *)
Definition u8ToB64 (array : Uint8Array) : result jsstring :=
  let binaryString := fromCharCodes array in
  Base64.btoa binaryString.

Definition b64ToU8 (base64 : jsstring) : result Uint8Array :=
  binaryString ← Base64.atob base64;
  Ok (charCodes binaryString).

(** ** UTF-8: [TextEncoder.encode] and [TextDecoder.decode] *)

Module Utf8.

Definition replacement : N := 0xFFFD.
Definition BOM : N := 0xFEFF.

Definition is_lead_surrogate (c : N) : bool := (0xD800 <=? c) && (c <=? 0xDBFF).
Definition is_trail_surrogate (c : N) : bool := (0xDC00 <=? c) && (c <=? 0xDFFF).

(** Conversion of a JavaScript string to scalar values: a surrogate pair
    is one scalar value, an unpaired surrogate becomes U+FFFD. *)
Fixpoint scalars (s : jsstring) : list N :=
  match s with
  | [] => []
  | c :: rest =>
      if is_lead_surrogate c then
        match rest with
        | d :: rest' =>
            if is_trail_surrogate d
            then (0x10000 + (c - 0xD800) * 0x400 + (d - 0xDC00)) :: scalars rest'
            else replacement :: scalars rest
        | [] => [replacement]
        end
      else if is_trail_surrogate c then replacement :: scalars rest
      else c :: scalars rest
  end.

(** The inverse direction: a scalar value as one or two code units. *)
Definition code_units (cp : N) : jsstring :=
  if cp <? 0x10000 then [cp]
  else [0xD800 + (cp - 0x10000) / 0x400; 0xDC00 + (cp - 0x10000) mod 0x400].

Definition encode_scalar (cp : N) : Uint8Array :=
  if cp <? 0x80 then [byte_of_N cp]
  else if cp <? 0x800 then
    [byte_of_N (0xC0 + cp / 64); byte_of_N (0x80 + cp mod 64)]
  else if cp <? 0x10000 then
    [byte_of_N (0xE0 + cp / 4096); byte_of_N (0x80 + cp / 64 mod 64);
     byte_of_N (0x80 + cp mod 64)]
  else
    [byte_of_N (0xF0 + cp / 262144); byte_of_N (0x80 + cp / 4096 mod 64);
     byte_of_N (0x80 + cp / 64 mod 64); byte_of_N (0x80 + cp mod 64)].

(** [new TextEncoder().encode(s)] *)
Definition TextEncoder_encode (s : jsstring) : Uint8Array :=
  flat_map encode_scalar (scalars s).

(** The UTF-8 decoder of the Encoding standard, as a machine over bytes. *)
Record decoder : Type := mkDecoder {
    code_point : N;
    bytes_seen : N;
    bytes_needed : N;
    lower_boundary : N;
    upper_boundary : N
  }.

Definition decoder_init : decoder := mkDecoder 0 0 0 0x80 0xBF.

(** A byte read while no sequence is open. *)
Definition decode_lead (b : N) : decoder * list N :=
  if b <=? 0x7F then (decoder_init, [b])
  else if (0xC2 <=? b) && (b <=? 0xDF) then
    (mkDecoder (b mod 32) 0 1 0x80 0xBF, [])
  else if (0xE0 <=? b) && (b <=? 0xEF) then
    (mkDecoder (b mod 16) 0 2
       (if b =? 0xE0 then 0xA0 else 0x80) (if b =? 0xED then 0x9F else 0xBF), [])
  else if (0xF0 <=? b) && (b <=? 0xF4) then
    (mkDecoder (b mod 8) 0 3
       (if b =? 0xF0 then 0x90 else 0x80) (if b =? 0xF4 then 0x8F else 0xBF), [])
  else (decoder_init, [replacement]).

(** One byte: the new decoder state and the code points emitted.  A byte
    outside the expected range ends the open sequence with U+FFFD and is
    then read again as a lead byte. *)
Definition decode_byte (d : decoder) (b : N) : decoder * list N :=
  if bytes_needed d =? 0 then decode_lead b
  else if (b <? lower_boundary d) || (upper_boundary d <? b) then
    let '(d', out) := decode_lead b in (d', replacement :: out)
  else
    let cp := code_point d * 64 + b mod 64 in
    let seen := bytes_seen d + 1 in
    if seen =? bytes_needed d then (decoder_init, [cp])
    else (mkDecoder cp seen (bytes_needed d) 0x80 0xBF, []).

Fixpoint decode_from (d : decoder) (bs : Uint8Array) : list N :=
  match bs with
  | [] => if bytes_needed d =? 0 then [] else [replacement]
  | b :: bs' =>
      let '(d', out) := decode_byte d (Byte.to_N b) in
      out ++ decode_from d' bs'
  end.

(** With [ignoreBOM] false (the default) a leading U+FEFF is dropped. *)
Definition strip_BOM (cps : list N) : list N :=
  match cps with
  | c :: rest => if c =? BOM then rest else cps
  | [] => []
  end.

(** [new TextDecoder().decode(buffer)] *)
Definition TextDecoder_decode (buffer : Uint8Array) : jsstring :=
  flat_map code_units (strip_BOM (decode_from decoder_init buffer)).

(** A string of 16-bit code units in which every surrogate is paired. *)
Fixpoint well_formed (s : jsstring) : bool :=
  match s with
  | [] => true
  | c :: rest =>
      if is_lead_surrogate c then
        match rest with
        | d :: rest' => is_trail_surrogate d && well_formed rest'
        | [] => false
        end
      else (c <? 0x10000) && negb (is_trail_surrogate c) && well_formed rest
  end.

Definition starts_with_BOM (s : jsstring) : bool :=
  match s with c :: _ => c =? BOM | [] => false end.

(** A Unicode scalar value: a code point that is not a surrogate. *)
Definition scalar_value (cp : N) : Prop :=
  cp < 0x110000 /\ ~ (0xD800 <= cp <= 0xDFFF).

End Utf8.

(** ** SHA-256: [crypto.subtle.digest('SHA-256', data)] *)

Module Sha256.

Definition w32 (x : N) : N := x mod 4294967296.
Definition add32 (x y : N) : N := w32 (x + y).
Definition not32 (x : N) : N := N.lxor x 0xFFFFFFFF.
Definition rotr (n x : N) : N := N.lor (N.shiftr x n) (w32 (N.shiftl x (32 - n))).

Definition Ch (x y z : N) : N := N.lxor (N.land x y) (N.land (not32 x) z).
Definition Maj (x y z : N) : N :=
  N.lxor (N.lxor (N.land x y) (N.land x z)) (N.land y z).
Definition Sigma0 (x : N) : N := N.lxor (N.lxor (rotr 2 x) (rotr 13 x)) (rotr 22 x).
Definition Sigma1 (x : N) : N := N.lxor (N.lxor (rotr 6 x) (rotr 11 x)) (rotr 25 x).
Definition sigma0 (x : N) : N := N.lxor (N.lxor (rotr 7 x) (rotr 18 x)) (N.shiftr x 3).
Definition sigma1 (x : N) : N := N.lxor (N.lxor (rotr 17 x) (rotr 19 x)) (N.shiftr x 10).

(** The round constants: the first 32 bits of the fractional parts of the
    cube roots of the first 64 primes. *)
Definition K : list N :=
  [1116352408; 1899447441; 3049323471; 3921009573;
   961987163; 1508970993; 2453635748; 2870763221;
   3624381080; 310598401; 607225278; 1426881987;
   1925078388; 2162078206; 2614888103; 3248222580;
   3835390401; 4022224774; 264347078; 604807628;
   770255983; 1249150122; 1555081692; 1996064986;
   2554220882; 2821834349; 2952996808; 3210313671;
   3336571891; 3584528711; 113926993; 338241895;
   666307205; 773529912; 1294757372; 1396182291;
   1695183700; 1986661051; 2177026350; 2456956037;
   2730485921; 2820302411; 3259730800; 3345764771;
   3516065817; 3600352804; 4094571909; 275423344;
   430227734; 506948616; 659060556; 883997877;
   958139571; 1322822218; 1537002063; 1747873779;
   1955562222; 2024104815; 2227730452; 2361852424;
   2428436474; 2756734187; 3204031479; 3329325298].

Record hash : Type := mkHash {
    h0 : N; h1 : N; h2 : N; h3 : N; h4 : N; h5 : N; h6 : N; h7 : N
  }.

(** The initial hash value: from the square roots of the first 8 primes. *)
Definition H0 : hash :=
  mkHash 1779033703 3144134277 1013904242 2773480762
         1359893119 2600822924 528734635 1541459225.

(** Message padding: a one bit, zeros, and the bit length on 64 bits. *)
Definition be_bytes (width : nat) (x : N) : Uint8Array :=
  List.map (fun i => byte_of_N (N.shiftr x (8 * N.of_nat (width - 1 - i)))) (seq 0 width).

Definition padding (len : nat) : Uint8Array :=
  let zeros := ((119 - len mod 64) mod 64)%nat in
  x80 :: repeat x00 zeros ++ be_bytes 8 (8 * N.of_nat len).

Fixpoint words (bs : Uint8Array) : list N :=
  match bs with
  | a :: b :: c :: d :: rest =>
      (((Byte.to_N a * 256 + Byte.to_N b) * 256 + Byte.to_N c) * 256 + Byte.to_N d)
      :: words rest
  | _ => []
  end.

(** The message schedule, kept as a window of the last sixteen words. *)
Fixpoint schedule (n : nat) (window : list N) : list N :=
  match n with
  | O => []
  | S n' =>
      let w := add32 (add32 (sigma1 (nth 14 window 0)) (nth 9 window 0))
                     (add32 (sigma0 (nth 1 window 0)) (nth 0 window 0)) in
      w :: schedule n' (tl window ++ [w])
  end.

Definition round (s : hash) (kw : N * N) : hash :=
  let '(k, w) := kw in
  let t1 := add32 (add32 (add32 (add32 (h7 s) (Sigma1 (h4 s))) (Ch (h4 s) (h5 s) (h6 s))) k) w in
  let t2 := add32 (Sigma0 (h0 s)) (Maj (h0 s) (h1 s) (h2 s)) in
  mkHash (add32 t1 t2) (h0 s) (h1 s) (h2 s) (add32 (h3 s) t1) (h4 s) (h5 s) (h6 s).

Definition compress (H : hash) (block : list N) : hash :=
  let W := block ++ schedule 48 block in
  let s := fold_left round (combine K W) H in
  mkHash (add32 (h0 H) (h0 s)) (add32 (h1 H) (h1 s)) (add32 (h2 H) (h2 s))
         (add32 (h3 H) (h3 s)) (add32 (h4 H) (h4 s)) (add32 (h5 H) (h5 s))
         (add32 (h6 H) (h6 s)) (add32 (h7 H) (h7 s)).

Fixpoint blocks (n : nat) (ws : list N) (H : hash) : hash :=
  match n with
  | O => H
  | S n' => blocks n' (skipn 16 ws) (compress H (firstn 16 ws))
  end.

Definition output (H : hash) : Uint8Array :=
  be_bytes 4 (h0 H) ++ be_bytes 4 (h1 H) ++ be_bytes 4 (h2 H) ++ be_bytes 4 (h3 H)
  ++ be_bytes 4 (h4 H) ++ be_bytes 4 (h5 H) ++ be_bytes 4 (h6 H) ++ be_bytes 4 (h7 H).

Definition digest (data : Uint8Array) : Uint8Array :=
  let ws := words (data ++ padding (length data)) in
  output (blocks (length ws / 16) ws H0).

Definition hex_digit (n : N) : N := if n <? 10 then 48 + n else 87 + n.
Definition hex (bs : Uint8Array) : jsstring :=
  flat_map (fun b => [hex_digit (Byte.to_N b / 16); hex_digit (Byte.to_N b mod 16)]) bs.

End Sha256.

(** ** Web Crypto and ML-KEM, as far as [crypto.ts] uses them *)

Inductive KeyAlgorithm : Type := PBKDF2 | AES_GCM.

Record CryptoKey : Type := mkCryptoKey {
  key_algorithm : KeyAlgorithm;
  key_data : Uint8Array
}.

(** The random source behind [crypto.getRandomValues] and the KEM. *)
Definition rng : Type := nat -> byte.

Definition getRandomValues (n : nat) (g : rng) : Uint8Array * rng :=
  (List.map g (seq 0 n), fun i => g (n + i)%nat).

(** The primitives the code invokes and does not implement. *)
Class Primitives : Type := {
  pbkdf2_hmac_sha256 : Uint8Array -> Uint8Array -> N -> Uint8Array;
  aes_gcm_encrypt : Uint8Array -> Uint8Array -> Uint8Array -> Uint8Array;
  aes_gcm_decrypt : Uint8Array -> Uint8Array -> Uint8Array -> option Uint8Array;
  mlkem_generateKeyPair : Uint8Array -> Uint8Array * Uint8Array;
  mlkem_encap : Uint8Array -> Uint8Array -> result (Uint8Array * Uint8Array);
  mlkem_decap : Uint8Array -> Uint8Array -> result Uint8Array
}.

(** The authenticated cipher returns what was encrypted (AES-GCM is correct). *)
Definition cipher_correct `{Primitives} : Prop :=
  forall key iv data, aes_gcm_decrypt key iv (aes_gcm_encrypt key iv data) = Some data.

Section Crypto.
Context `{Primitives}.

Definition subtle_importKey_raw (keyData : Uint8Array) (algorithm : KeyAlgorithm)
  : result CryptoKey :=
  match algorithm with
  | PBKDF2 => Ok (mkCryptoKey PBKDF2 keyData)
  | AES_GCM =>
      let n := length keyData in
      if ((n =? 16) || (n =? 24) || (n =? 32))%nat
      then Ok (mkCryptoKey AES_GCM keyData)
      else Err (DOMException "DataError")
  end.

Definition subtle_deriveKey (salt : Uint8Array) (iterations : N) (baseKey : CryptoKey)
  : result CryptoKey :=
  match key_algorithm baseKey with
  | PBKDF2 => Ok (mkCryptoKey AES_GCM (pbkdf2_hmac_sha256 (key_data baseKey) salt iterations))
  | AES_GCM => Err (DOMException "InvalidAccessError")
  end.

Definition subtle_encrypt (iv : Uint8Array) (key : CryptoKey) (data : Uint8Array)
  : result Uint8Array :=
  match key_algorithm key with
  | AES_GCM => Ok (aes_gcm_encrypt (key_data key) iv data)
  | PBKDF2 => Err (DOMException "InvalidAccessError")
  end.

Definition subtle_decrypt (iv : Uint8Array) (key : CryptoKey) (data : Uint8Array)
  : result Uint8Array :=
  match key_algorithm key with
  | AES_GCM =>
      match aes_gcm_decrypt (key_data key) iv data with
      | Some plain => Ok plain
      | None => Err (DOMException "OperationError")
      end
  | PBKDF2 => Err (DOMException "InvalidAccessError")
  end.

(** *** [lib/crypto.ts] *)

Definition PBKDF2_ITERATIONS : N := 100000.

Definition deriveMasterKey (password : jsstring) (salt : Uint8Array) : result CryptoKey :=
  passwordKey ← subtle_importKey_raw (Utf8.TextEncoder_encode password) PBKDF2;
  subtle_deriveKey salt PBKDF2_ITERATIONS passwordKey.

Definition getSaltForUser (email : jsstring) : Uint8Array :=
  let saltData := Utf8.TextEncoder_encode email in
  let hashBuffer := Sha256.digest saltData in
  firstn 16 hashBuffer.

Definition encryptWithAES (key : CryptoKey) (data : jsstring) (g : rng)
  : result jsstring * rng :=
  let '(iv, g') := getRandomValues 12 g in
  let encodedData := Utf8.TextEncoder_encode data in
  (encryptedBuffer ← subtle_encrypt iv key encodedData;
   ivB64 ← u8ToB64 iv;
   cipherB64 ← u8ToB64 encryptedBuffer;
   Ok (ivB64 ++ colon :: cipherB64),
   g').

Definition decryptWithAES (key : CryptoKey) (encryptedData : jsstring) : result jsstring :=
  let parts := split colon encryptedData in
  match parts with
  | [part0; part1] =>
      iv ← b64ToU8 part0;
      ciphertext ← b64ToU8 part1;
      decryptedBuffer ← subtle_decrypt iv key ciphertext;
      Ok (Utf8.TextDecoder_decode decryptedBuffer)
  | _ => Err (Error "Invalid encrypted data format")
  end.

Definition generateKyberKeyPair (g : rng) : result (jsstring * jsstring) * rng :=
  let '(seed, g') := getRandomValues 64 g in
  let '(pk, sk) := mlkem_generateKeyPair seed in
  (publicKey ← u8ToB64 pk; privateKey ← u8ToB64 sk; Ok (publicKey, privateKey), g').

(** Returns [(sharedSecret, ciphertext)]. *)
Definition encapSharedSecret (recipientPublicKeyB64 : jsstring) (g : rng)
  : result (jsstring * jsstring) * rng :=
  match b64ToU8 recipientPublicKeyB64 with
  | Err e => (Err e, g)
  | Ok pk =>
      let '(seed, g') := getRandomValues 32 g in
      ('(ct, ss) ← mlkem_encap pk seed;
       sharedSecret ← u8ToB64 ss;
       ciphertext ← u8ToB64 ct;
       Ok (sharedSecret, ciphertext),
       g')
  end.

Definition decapSharedSecret (myPrivateKeyB64 ciphertextB64 : jsstring) : result jsstring :=
  sk ← b64ToU8 myPrivateKeyB64;
  ct ← b64ToU8 ciphertextB64;
  ss ← mlkem_decap ct sk;
  u8ToB64 ss.

Definition importSharedSecret (sharedSecretB64 : jsstring) : result CryptoKey :=
  rawKey ← b64ToU8 sharedSecretB64;
  subtle_importKey_raw rawKey AES_GCM.

End Crypto.

(** ** The application's records ([types.ts]) *)

Record User : Type := mkUser {
  uid : jsstring;
  email : jsstring;
  emailVerified : bool
}.

Record UserProfile : Type := mkUserProfile {
  profile_uid : jsstring;
  username : jsstring;
  username_normalized : jsstring;
  profile_email : jsstring;
  kyberPublicKey : jsstring;
  friends : list jsstring;
  duressHash : option jsstring
}.

Record KeyVault : Type := mkKeyVault {
  encryptedPrivateKey : jsstring;
  encryptedSharedSecrets : jsstring
}.

Abbreviation SharedSecretsMap := (gmap jsstring jsstring).

Record InMemVault : Type := mkInMemVault {
  masterKey : CryptoKey;
  kyberPrivateKey : jsstring;
  sharedSecrets : SharedSecretsMap
}.

(** The state hooks of [AuthProvider]. *)
Record ReactState : Type := mkReactState {
  currentUser : option User;
  userProfile : option UserProfile;
  loading : bool;
  inMemVault : option InMemVault;
  isDecoyMode : bool
}.

(** ** Firebase: Firestore documents and the identity provider *)

(** The fields named in an [updateDoc] on a [keyVaults] document. *)
Record KeyVaultUpdate : Type := mkKeyVaultUpdate {
  update_encryptedPrivateKey : option jsstring;
  update_encryptedSharedSecrets : option jsstring
}.

Definition apply_update (u : KeyVaultUpdate) (v : KeyVault) : KeyVault :=
  mkKeyVault (default (encryptedPrivateKey v) (update_encryptedPrivateKey u))
             (default (encryptedSharedSecrets v) (update_encryptedSharedSecrets u)).

Record Firestore : Type := mkFirestore {
  users : gmap jsstring UserProfile;
  keyVaults : gmap jsstring KeyVault
}.

Record Account : Type := mkAccount {
  account_user : User;
  account_password : jsstring
}.

Record FirebaseAuth : Type := mkFirebaseAuth {
  accounts : list Account;
  auth_currentUser : option User
}.

(** What leaves the component: calls to Firebase and to [crypto.ts]. *)
Inductive event : Type :=
  | QueryUsers (field : string) (value : jsstring)
  | GetDoc (collection : string) (id : jsstring)
  | UpdateDoc (id : jsstring) (fields : KeyVaultUpdate)
  | SignIn (mail : jsstring)
  | SignOut
  | Reauthenticate
  | UpdatePassword
  | HashPasswordForStorage
  | DeriveMasterKey
  | EncryptWithAES (key : CryptoKey)
  | DecryptWithAES (key : CryptoKey) (encryptedData : jsstring)
  | EncapSharedSecret
  | DecapSharedSecret
  | ImportSharedSecret.

(** Calls that handle real key material or the real session. *)
Definition touches_real_vault (e : event) : bool :=
  match e with
  | QueryUsers _ _ | HashPasswordForStorage => false
  | _ => true
  end.

(** The component together with everything it talks to.  [faults] is the
    fate of the coming network requests: [true] loses the request. *)
Record System : Type := mkSystem {
  react : ReactState;
  firestore : Firestore;
  auth : FirebaseAuth;
  entropy : rng;
  faults : list bool;
  trace : list event
}.

(** An asynchronous computation: it ends fulfilled or rejected, and in
    both cases leaves a system behind. *)
Definition M (A : Type) : Type := System -> result A * System.

Global Instance M_ret : MRet M := fun A a s => (Ok a, s).
Global Instance M_bind : MBind M := fun A B k m s =>
  match m s with
  | (Ok a, s') => k a s'
  | (Err e, s') => (Err e, s')
  end.

Definition throw {A} (e : error) : M A := fun s => (Err e, s).
Definition lift {A} (r : result A) : M A := fun s => (r, s).

(** [try { body } catch (err) { handler }] *)
Definition try_catch {A} (body : M A) (handler : error -> M A) : M A := fun s =>
  match body s with
  | (Ok a, s') => (Ok a, s')
  | (Err e, s') => handler e s'
  end.

(** [try { body } finally { cleanup }] *)
Definition try_finally {A} (body : M A) (cleanup : M unit) : M A := fun s =>
  match body s with
  | (r, s') =>
      match cleanup s' with
      | (Ok _, s'') => (r, s'')
      | (Err e, s'') => (Err e, s'')
      end
  end.

(** A promise nobody awaits: its rejection reaches no caller. *)
Definition detached {A} (m : M A) : M unit := fun s => (Ok tt, snd (m s)).

Definition with_react (f : ReactState -> ReactState) (s : System) : System :=
  mkSystem (f (react s)) (firestore s) (auth s) (entropy s) (faults s) (trace s).
Definition with_firestore (f : Firestore -> Firestore) (s : System) : System :=
  mkSystem (react s) (f (firestore s)) (auth s) (entropy s) (faults s) (trace s).
Definition with_auth (f : FirebaseAuth -> FirebaseAuth) (s : System) : System :=
  mkSystem (react s) (firestore s) (f (auth s)) (entropy s) (faults s) (trace s).
Definition with_entropy (g : rng) (s : System) : System :=
  mkSystem (react s) (firestore s) (auth s) g (faults s) (trace s).
Definition with_faults (fs : list bool) (s : System) : System :=
  mkSystem (react s) (firestore s) (auth s) (entropy s) fs (trace s).
Definition with_trace (t : list event) (s : System) : System :=
  mkSystem (react s) (firestore s) (auth s) (entropy s) (faults s) t.

Definition log (e : event) : M unit := fun s => (Ok tt, with_trace (trace s ++ [e]) s).

(** A request to Firebase is lost if the next fault says so. *)
Definition lost (s : System) : bool :=
  match faults s with true :: _ => true | _ => false end.

Definition sent (s : System) : System := with_faults (tl (faults s)) s.

Definition request {A} (serve : M A) : M A := fun s =>
  if lost s then (Err (FirebaseError "unavailable"), sent s) else serve (sent s).

(** The events logged between two systems. *)
Definition events_since (s s' : System) : list event :=
  drop (length (trace s)) (trace s').

(** A call into [crypto.ts] that draws randomness. *)
Definition random {A} (f : rng -> result A * rng) : M A := fun s =>
  let '(r, g) := f (entropy s) in (r, with_entropy g s).

(** *** State setters *)

Definition setCurrentUser (u : option User) : M unit := fun s =>
  (Ok tt, with_react (fun r => mkReactState u (userProfile r) (loading r) (inMemVault r) (isDecoyMode r)) s).
Definition setUserProfile (p : option UserProfile) : M unit := fun s =>
  (Ok tt, with_react (fun r => mkReactState (currentUser r) p (loading r) (inMemVault r) (isDecoyMode r)) s).
Definition setLoading (b : bool) : M unit := fun s =>
  (Ok tt, with_react (fun r => mkReactState (currentUser r) (userProfile r) b (inMemVault r) (isDecoyMode r)) s).
Definition updateInMemVault (f : option InMemVault -> option InMemVault) : M unit := fun s =>
  (Ok tt, with_react (fun r => mkReactState (currentUser r) (userProfile r) (loading r) (f (inMemVault r)) (isDecoyMode r)) s).
Definition setInMemVault (v : option InMemVault) : M unit := updateInMemVault (fun _ => v).
Definition setIsDecoyMode (b : bool) : M unit := fun s =>
  (Ok tt, with_react (fun r => mkReactState (currentUser r) (userProfile r) (loading r) (inMemVault r) b) s).

(** *** Firestore *)

(** [query(users, where(field, '==', value), limit(1))] *)
Definition query_users (select : UserProfile -> jsstring) (value : jsstring) (f : Firestore)
  : list UserProfile :=
  take 1 (List.filter (fun p => bool_decide (select p = value))
            (List.map snd (map_to_list (users f)))).

Definition getDocs_users (field : string) (select : UserProfile -> jsstring) (value : jsstring)
  : M (list UserProfile) :=
  log (QueryUsers field value);;
  request (fun s => (Ok (query_users select value (firestore s)), s)).

Definition getDoc_users (id : jsstring) : M (option UserProfile) :=
  log (GetDoc "users" id);;
  request (fun s => (Ok (users (firestore s) !! id), s)).

Definition getDoc_keyVaults (id : jsstring) : M (option KeyVault) :=
  log (GetDoc "keyVaults" id);;
  request (fun s => (Ok (keyVaults (firestore s) !! id), s)).

(** [updateDoc] writes the named fields of an existing document and
    rejects when there is none. *)
Definition updateDoc_keyVaults (id : jsstring) (fields : KeyVaultUpdate) : M unit :=
  log (UpdateDoc id fields);;
  request (fun s =>
    match keyVaults (firestore s) !! id with
    | Some v =>
        (Ok tt, with_firestore (fun f =>
           mkFirestore (users f) (<[id := apply_update fields v]> (keyVaults f))) s)
    | None => (Err (FirebaseError "not-found"), s)
    end).

(** *** The identity provider *)

Definition find_account (mail : jsstring) (l : list Account) : option Account :=
  List.find (fun a => bool_decide (email (account_user a) = mail)) l.

(** The identity provider notifies the component's [onAuthStateChanged]
    callback of every change of the signed-in user; the callback is run to
    its end at that moment. *)
Definition set_auth_user (listener : option User -> M unit) (u : option User) : M unit :=
  (fun s => (Ok tt, with_auth (fun a => mkFirebaseAuth (accounts a) u) s));;
  detached (listener u).

Definition signInWithEmailAndPassword (listener : option User -> M unit)
    (mail password : jsstring) : M User :=
  log (SignIn mail);;
  request (fun s =>
    match find_account mail (accounts (auth s)) with
    | Some a =>
        if bool_decide (account_password a = password)
        then (_ ← set_auth_user listener (Some (account_user a)); mret (account_user a)) s
        else (Err (FirebaseError "auth/invalid-credential"), s)
    | None => (Err (FirebaseError "auth/invalid-credential"), s)
    end).

Definition signOut (listener : option User -> M unit) : M unit :=
  log SignOut;;
  request (set_auth_user listener None).

Definition reauthenticateWithCredential (user : User) (mail password : jsstring) : M unit :=
  log Reauthenticate;;
  request (fun s =>
    match find_account mail (accounts (auth s)) with
    | Some a =>
        if bool_decide (account_password a = password) && bool_decide (uid (account_user a) = uid user)
        then (Ok tt, s)
        else (Err (FirebaseError "auth/invalid-credential"), s)
    | None => (Err (FirebaseError "auth/invalid-credential"), s)
    end).

Definition updatePassword (user : User) (newPassword : jsstring) : M unit :=
  log UpdatePassword;;
  request (fun s =>
    (Ok tt, with_auth (fun a =>
       mkFirebaseAuth
         (List.map (fun acc => if bool_decide (uid (account_user acc) = uid user)
                               then mkAccount (account_user acc) newPassword else acc)
                   (accounts a))
         (auth_currentUser a)) s)).

(** ** What the host environment supplies *)

Class Host : Type := {
  toLowerCase : jsstring -> jsstring;
  JSON_stringify : SharedSecretsMap -> jsstring;
  JSON_parse : jsstring -> result SharedSecretsMap;
(** [Crypto.hashPasswordForStorage]: called by the component, its
    definition is not part of [crypto.ts] as available. *)
  hashPasswordForStorage : jsstring -> result jsstring
}.

(** *** Calls into [crypto.ts], as the component sees them *)

Section CryptoCalls.
Context `{Primitives} `{Host}.

Definition Crypto_hashPasswordForStorage (password : jsstring) : M jsstring :=
  log HashPasswordForStorage;; lift (hashPasswordForStorage password).
Definition Crypto_deriveMasterKey (password : jsstring) (salt : Uint8Array) : M CryptoKey :=
  log DeriveMasterKey;; lift (deriveMasterKey password salt).
Definition Crypto_encryptWithAES (key : CryptoKey) (data : jsstring) : M jsstring :=
  log (EncryptWithAES key);; random (encryptWithAES key data).
Definition Crypto_decryptWithAES (key : CryptoKey) (encryptedData : jsstring) : M jsstring :=
  log (DecryptWithAES key encryptedData);; lift (decryptWithAES key encryptedData).
Definition Crypto_encapSharedSecret (recipientPublicKey : jsstring) : M (jsstring * jsstring) :=
  log EncapSharedSecret;; random (encapSharedSecret recipientPublicKey).
Definition Crypto_decapSharedSecret (myPrivateKey ciphertext : jsstring) : M jsstring :=
  log DecapSharedSecret;; lift (decapSharedSecret myPrivateKey ciphertext).
Definition Crypto_importSharedSecret (sharedSecretB64 : jsstring) : M CryptoKey :=
  log ImportSharedSecret;; lift (importSharedSecret sharedSecretB64).

End CryptoCalls.

(** ** [AuthProvider] with decoy mode

    The component that follows [ProtectedRoute] in
    [components/core/ProtectedRoute.tsx].  Every function of the component
    closes over the state of the render that created it: [cl] below. *)

Module DuressAuthContext.
Section AuthProvider.
Context `{Primitives} `{Host}.

(** The callback registered with [onAuthStateChanged]. *)
Definition onAuthStateChanged (user : option User) : M unit :=
  setLoading true;;
  match user with
  | Some u =>
      setCurrentUser (Some u);;
      profileDoc ← getDoc_users (uid u);
      match profileDoc with
      | Some p => setUserProfile (Some p)
      | None => mret tt
      end;;
      setIsDecoyMode false
  | None =>
      setCurrentUser None;;
      setUserProfile None;;
      setInMemVault None;;
      setIsDecoyMode false
  end;;
  setLoading false.

Definition logout (cl : ReactState) : M unit :=
  if isDecoyMode cl then
    setCurrentUser None;;
    setUserProfile None;;
    setInMemVault None;;
    setIsDecoyMode false
  else
    signOut onAuthStateChanged.

(** Step 1 of [login]: [true] when the function has returned from
    inside the duress check. *)
Definition duress_check (email_ password : jsstring) : M bool :=
  try_catch
    (userSnap ← getDocs_users "email" profile_email (toLowerCase email_);
     match userSnap with
     | profile :: _ =>
         match duressHash profile with
         | Some stored =>
             if truthy stored then
               enteredHash ← Crypto_hashPasswordForStorage password;
               if bool_decide (enteredHash = stored) then
                 setCurrentUser (Some (mkUser (profile_uid profile) (profile_email profile) true));;
                 setUserProfile (Some profile);;
                 setInMemVault None;;
                 setIsDecoyMode true;;
                 setLoading false;;
                 mret true
               else mret false
             else mret false
         | None => mret false
         end
     | [] => mret false
     end)
    (fun duressCheckError => mret false).

(** The inner [try] of step 2: both fields of the vault, or a forced
    logout and ["Invalid password."]. *)
Definition decrypt_vault (cl : ReactState) (mk : CryptoKey) (vault : KeyVault)
  : M (jsstring * SharedSecretsMap) :=
  try_catch
    (pKey ← Crypto_decryptWithAES mk (encryptedPrivateKey vault);
     secretsJson ← Crypto_decryptWithAES mk (encryptedSharedSecrets vault);
     secrets ← lift (JSON_parse secretsJson);
     mret (pKey, secrets))
    (fun err => logout cl;; throw (Error "Invalid password.")).

(** Step 2 of [login]: the real sign-in and the unlock. *)
Definition real_login (cl : ReactState) (email_ password : jsstring) : M unit :=
  try_finally
    (try_catch
       (user ← signInWithEmailAndPassword onAuthStateChanged email_ password;
        let salt := getSaltForUser (email user) in
        mk ← Crypto_deriveMasterKey password salt;
        profile ← getDoc_users (uid user);
        vaultDoc ← getDoc_keyVaults (uid user);
        match vaultDoc with
        | None => throw (Error "Key vault not found.")
        | Some vault =>
            '(pKey, secrets) ← decrypt_vault cl mk vault;
            setCurrentUser (Some user);;
            setUserProfile profile;;
            setInMemVault (Some (mkInMemVault mk pKey secrets));;
            setIsDecoyMode false
        end)
       (fun realAuthError => throw realAuthError))
    (if loading cl then setLoading false else mret tt).

Definition login (cl : ReactState) (email_ password : jsstring) : M unit :=
  setLoading true;;
  returned ← duress_check email_ password;
  if returned : bool then mret tt else real_login cl email_ password.

Definition changePassword (cl : ReactState) (currentPassword newPassword : jsstring) : M unit :=
  match currentUser cl, inMemVault cl with
  | Some user, Some vault =>
      if negb (truthy (email user)) then throw (Error "User not fully authenticated.")
      else if isDecoyMode cl then throw (Error "Cannot change password in decoy mode.")
      else
        reauthenticateWithCredential user (email user) currentPassword;;
        try_catch
          (let salt := getSaltForUser (email user) in
           let decryptedPrivateKey := kyberPrivateKey vault in
           let decryptedSecrets := sharedSecrets vault in
           newMasterKey ← Crypto_deriveMasterKey newPassword salt;
           newEncryptedPrivateKey ← Crypto_encryptWithAES newMasterKey decryptedPrivateKey;
           newEncryptedSecrets ←
             Crypto_encryptWithAES newMasterKey (JSON_stringify decryptedSecrets);
           updateDoc_keyVaults (uid user)
             (mkKeyVaultUpdate (Some newEncryptedPrivateKey) (Some newEncryptedSecrets));;
           updatePassword user newPassword;;
           setInMemVault
             (Some (mkInMemVault newMasterKey (kyberPrivateKey vault) (sharedSecrets vault))))
          (fun cryptoError =>
             throw (Error "Vault re-encryption failed. Password not changed."))
  | _, _ => throw (Error "User not fully authenticated.")
  end.

(** [setInMemVault((v) => v ? { ...v, sharedSecrets: newSecretsMap } : null)] *)
Definition store_secrets (newSecretsMap : SharedSecretsMap) : M unit :=
  updateInMemVault (fun v =>
    match v with
    | Some v => Some (mkInMemVault (masterKey v) (kyberPrivateKey v) newSecretsMap)
    | None => None
    end).

Definition decapAndSaveKey (cl : ReactState) (chatId ciphertext : jsstring) : M unit :=
  match inMemVault cl, currentUser cl with
  | Some vault, Some user =>
      if isDecoyMode cl then throw (Error "Cannot use crypto in decoy mode.")
      else
        sharedSecretB64 ← Crypto_decapSharedSecret (kyberPrivateKey vault) ciphertext;
        let newSecretsMap := <[chatId := sharedSecretB64]> (sharedSecrets vault) in
        encryptedSharedSecrets_ ←
          Crypto_encryptWithAES (masterKey vault) (JSON_stringify newSecretsMap);
        updateDoc_keyVaults (uid user) (mkKeyVaultUpdate None (Some encryptedSharedSecrets_));;
        store_secrets newSecretsMap
  | _, _ => throw (Error "Vault locked.")
  end.

Definition encapAndSaveKey (cl : ReactState) (chatId recipientPublicKey : jsstring)
  : M jsstring :=
  match inMemVault cl, currentUser cl with
  | Some vault, Some user =>
      if isDecoyMode cl then throw (Error "Cannot use crypto in decoy mode.")
      else
        '(sharedSecret, ciphertext) ← Crypto_encapSharedSecret recipientPublicKey;
        let newSecretsMap := <[chatId := sharedSecret]> (sharedSecrets vault) in
        encryptedSharedSecrets_ ←
          Crypto_encryptWithAES (masterKey vault) (JSON_stringify newSecretsMap);
        updateDoc_keyVaults (uid user) (mkKeyVaultUpdate None (Some encryptedSharedSecrets_));;
        store_secrets newSecretsMap;;
        mret ciphertext
  | _, _ => throw (Error "Vault locked.")
  end.

(** Resolves to [null] ([None]) when there is no key to give. *)
Definition getChatKey (cl : ReactState) (chatId : jsstring) : M (option CryptoKey) :=
  if isDecoyMode cl then mret None
  else match inMemVault cl with
       | None => mret None
       | Some vault =>
           match sharedSecrets vault !! chatId with
           | Some secretB64 =>
               if truthy secretB64
               then key ← Crypto_importSharedSecret secretB64; mret (Some key)
               else mret None
           | None => mret None
           end
       end.

Definition isVaultUnlocked (r : ReactState) : bool :=
  match inMemVault r with Some _ => true | None => false end.

(** The profile lookup for this address is answered, with a profile that
    carries a duress hash, and the hash of the entered password equals it. *)
Definition duress_match (s : System) (email_ password : jsstring) (profile : UserProfile)
  : Prop :=
  lost s = false
  /\ query_users profile_email (toLowerCase email_) (firestore s) = [profile]
  /\ exists stored, duressHash profile = Some stored /\ truthy stored = true
                     /\ hashPasswordForStorage password = Ok stored.

(** The vault-dependent operations, as the rest of the application
    calls them: each call is made by the current render. *)
Inductive vault_call : Type :=
  | CallGetChatKey (chatId : jsstring)
  | CallDecapAndSaveKey (chatId ciphertext : jsstring)
  | CallEncapAndSaveKey (chatId recipientPublicKey : jsstring)
  | CallChangePassword (currentPassword newPassword : jsstring).

Definition call (c : vault_call) (s : System) : System :=
  match c with
  | CallGetChatKey chatId => snd (getChatKey (react s) chatId s)
  | CallDecapAndSaveKey chatId ciphertext => snd (decapAndSaveKey (react s) chatId ciphertext s)
  | CallEncapAndSaveKey chatId pk => snd (encapAndSaveKey (react s) chatId pk s)
  | CallChangePassword current new => snd (changePassword (react s) current new s)
  end.

Definition calls (cs : list vault_call) (s : System) : System :=
  fold_left (fun s c => call c s) cs s.

End AuthProvider.
End DuressAuthContext.

(** ** [AuthProvider] of [context/AuthContext.tsx]

    The component without decoy mode; [isDecoyMode] is never written. *)

Module AuthContext.
Section AuthProvider.
Context `{Primitives} `{Host}.

Definition onAuthStateChanged (user : option User) : M unit :=
  setLoading true;;
  match user with
  | Some u =>
      setCurrentUser (Some u);;
      profileDoc ← getDoc_users (uid u);
      match profileDoc with
      | Some p => setUserProfile (Some p)
      | None => mret tt
      end
  | None =>
      setCurrentUser None;;
      setUserProfile None;;
      setInMemVault None
  end;;
  setLoading false.

Definition logout : M unit := signOut onAuthStateChanged.

Definition decrypt_vault (mk : CryptoKey) (vault : KeyVault)
  : M (jsstring * SharedSecretsMap) :=
  try_catch
    (pKey ← Crypto_decryptWithAES mk (encryptedPrivateKey vault);
     secretsJson ← Crypto_decryptWithAES mk (encryptedSharedSecrets vault);
     secrets ← lift (JSON_parse secretsJson);
     mret (pKey, secrets))
    (fun err => logout;; throw (Error "Invalid password.")).

Definition login (email_ password : jsstring) : M unit :=
  setLoading true;;
  try_finally
    (try_catch
       (user ← signInWithEmailAndPassword onAuthStateChanged email_ password;
        let salt := getSaltForUser (email user) in
        mk ← Crypto_deriveMasterKey password salt;
        profileDoc ← getDoc_users (uid user);
        vaultDoc ← getDoc_keyVaults (uid user);
        match profileDoc, vaultDoc with
        | Some profile, Some vault =>
            '(pKey, secrets) ← decrypt_vault mk vault;
            setCurrentUser (Some user);;
            setUserProfile (Some profile);;
            setInMemVault (Some (mkInMemVault mk pKey secrets))
        | _, _ => throw (Error "User data or key vault not found.")
        end)
       (fun err => throw err))
    (setLoading false).

Definition changePassword (cl : ReactState) (currentPassword newPassword : jsstring) : M unit :=
  match currentUser cl, inMemVault cl with
  | Some user, Some vault =>
      if negb (truthy (email user)) then throw (Error "User not fully authenticated.")
      else
        reauthenticateWithCredential user (email user) currentPassword;;
        try_catch
          (let salt := getSaltForUser (email user) in
           let decryptedPrivateKey := kyberPrivateKey vault in
           let decryptedSecrets := sharedSecrets vault in
           newMasterKey ← Crypto_deriveMasterKey newPassword salt;
           newEncryptedPrivateKey ← Crypto_encryptWithAES newMasterKey decryptedPrivateKey;
           newEncryptedSecrets ←
             Crypto_encryptWithAES newMasterKey (JSON_stringify decryptedSecrets);
           updateDoc_keyVaults (uid user)
             (mkKeyVaultUpdate (Some newEncryptedPrivateKey) (Some newEncryptedSecrets));;
           updatePassword user newPassword;;
           setInMemVault
             (Some (mkInMemVault newMasterKey (kyberPrivateKey vault) (sharedSecrets vault))))
          (fun cryptoError =>
             throw (Error "Vault re-encryption failed. Password not changed."))
  | _, _ => throw (Error "User not fully authenticated.")
  end.

Definition store_secrets (newSecretsMap : SharedSecretsMap) : M unit :=
  updateInMemVault (fun v =>
    match v with
    | Some v => Some (mkInMemVault (masterKey v) (kyberPrivateKey v) newSecretsMap)
    | None => None
    end).

Definition decapAndSaveKey (cl : ReactState) (chatId ciphertext : jsstring) : M unit :=
  match inMemVault cl, currentUser cl with
  | Some vault, Some user =>
      sharedSecretB64 ← Crypto_decapSharedSecret (kyberPrivateKey vault) ciphertext;
      let newSecretsMap := <[chatId := sharedSecretB64]> (sharedSecrets vault) in
      encryptedSharedSecrets_ ←
        Crypto_encryptWithAES (masterKey vault) (JSON_stringify newSecretsMap);
      updateDoc_keyVaults (uid user) (mkKeyVaultUpdate None (Some encryptedSharedSecrets_));;
      store_secrets newSecretsMap
  | _, _ => throw (Error "Vault locked.")
  end.

Definition encapAndSaveKey (cl : ReactState) (chatId recipientPublicKey : jsstring)
  : M jsstring :=
  match inMemVault cl, currentUser cl with
  | Some vault, Some user =>
      '(sharedSecret, ciphertext) ← Crypto_encapSharedSecret recipientPublicKey;
      let newSecretsMap := <[chatId := sharedSecret]> (sharedSecrets vault) in
      encryptedSharedSecrets_ ←
        Crypto_encryptWithAES (masterKey vault) (JSON_stringify newSecretsMap);
      updateDoc_keyVaults (uid user) (mkKeyVaultUpdate None (Some encryptedSharedSecrets_));;
      store_secrets newSecretsMap;;
      mret ciphertext
  | _, _ => throw (Error "Vault locked.")
  end.

Definition getChatKey (cl : ReactState) (chatId : jsstring) : M (option CryptoKey) :=
  match inMemVault cl with
  | None => mret None
  | Some vault =>
      match sharedSecrets vault !! chatId with
      | Some secretB64 =>
          if truthy secretB64
          then key ← Crypto_importSharedSecret secretB64; mret (Some key)
          else mret None
      | None => mret None
      end
  end.

End AuthProvider.
End AuthContext.

(** ** A small instantiation of the parameters, to run the model

    The stand-ins keep the shape of the primitives: the cipher tags what
    it encrypts with a keyed hash and refuses a tag that does not match;
    the KEM derives the secret from key and ciphertext. *)

Module Demo.

Definition tag (key iv data : Uint8Array) : Uint8Array :=
  firstn 16 (Sha256.digest (key ++ iv ++ data)).

Definition encrypt (key iv data : Uint8Array) : Uint8Array :=
  tag key iv data ++ data.

Definition decrypt (key iv data : Uint8Array) : option Uint8Array :=
  let body := skipn 16 data in
  if bool_decide (firstn 16 data = tag key iv body) then Some body else None.

Global Instance primitives : Primitives := {|
    pbkdf2_hmac_sha256 password salt iterations := Sha256.digest (password ++ salt);
    aes_gcm_encrypt := encrypt;
    aes_gcm_decrypt := decrypt;
    mlkem_generateKeyPair seed := (seed, seed);
    mlkem_encap pk seed := Ok (seed, Sha256.digest (pk ++ seed));
    mlkem_decap ct sk := Ok (Sha256.digest (sk ++ ct))
  |}.

Definition ascii_toLowerCase (s : jsstring) : jsstring :=
  List.map (fun c => if (65 <=? c) && (c <=? 90) then c + 32 else c) s.

(** A flat text form of a secrets map: [key U+0001 value U+0002]... *)
Definition stringify (m : SharedSecretsMap) : jsstring :=
  flat_map (fun kv => fst kv ++ 1 :: snd kv ++ [2]) (map_to_list m).

Fixpoint parse_entries (entries : list jsstring) : result SharedSecretsMap :=
  match entries with
  | [] => Err SyntaxError
  | [last] => if truthy last then Err SyntaxError else Ok ∅
  | entry :: rest =>
      match split 1 entry with
      | [k; v] => m ← parse_entries rest; Ok (<[k := v]> m)
      | _ => Err SyntaxError
      end
  end.

Definition parse (text : jsstring) : result SharedSecretsMap :=
  parse_entries (split 2 text).

Global Instance host : Host := {|
    toLowerCase := ascii_toLowerCase;
    JSON_stringify := stringify;
    JSON_parse := parse;
    hashPasswordForStorage password :=
      Ok (Sha256.hex (Sha256.digest (Utf8.TextEncoder_encode password)))
  |}.

Definition zero_rng : rng := fun _ => x00.
Definition counting_rng : rng := fun i => byte_of_N (N.of_nat i).

Definition aes_key : CryptoKey := mkCryptoKey AES_GCM (repeat x2a 32).

(** *** One account, with a vault and a duress password *)

Definition the (key : result CryptoKey) : CryptoKey :=
  match key with Ok k => k | Err _ => mkCryptoKey PBKDF2 [] end.
Definition text (s : result jsstring) : jsstring :=
  match s with Ok s => s | Err _ => [] end.

Definition alice_email : jsstring := js "alice@example.com".
Definition alice_password : jsstring := js "correcthorse1".
Definition alice_duress_password : jsstring := js "open-sesame".
Definition alice : User := mkUser (js "uid-alice") alice_email true.

Definition alice_master_key : CryptoKey :=
  the (deriveMasterKey alice_password (getSaltForUser alice_email)).
Definition alice_private_key : jsstring := js "c2VjcmV0LWtleS1ieXRlcw==".

Definition alice_vault : KeyVault :=
  mkKeyVault
    (text (fst (encryptWithAES alice_master_key alice_private_key zero_rng)))
    (text (fst (encryptWithAES alice_master_key (stringify ∅) zero_rng))).

Definition alice_profile : UserProfile :=
  mkUserProfile (uid alice) (js "Alice") (js "ALICE") alice_email (js "cHVibGljLWtleQ==") []
    (Some (text (hashPasswordForStorage alice_duress_password))).

Definition store : Firestore :=
  mkFirestore {[ uid alice := alice_profile ]} {[ uid alice := alice_vault ]}.

Definition provider : FirebaseAuth :=
  mkFirebaseAuth [mkAccount alice alice_password] None.

Definition fresh : ReactState := mkReactState None None false None false.

Definition signed_out : System :=
  mkSystem fresh store provider counting_rng [] [].

(** The same system after the vault document was damaged. *)
Definition damaged : System :=
  with_firestore (fun f =>
    mkFirestore (users f)
      {[ uid alice := mkKeyVault (encryptedPrivateKey alice_vault) (js "not a ciphertext") ]})
    signed_out.

(** [alice] signed in, vault unlocked. *)
Definition unlocked : System :=
  snd (DuressAuthContext.login fresh alice_email alice_password signed_out).

(** The same, with the third request to come being lost. *)
Definition flaky : System := with_faults [false; false; true] unlocked.

Definition chat : jsstring := js "chat-1".
Definition kem_ciphertext : jsstring := js "a2VtLWNpcGhlcnRleHQ=".

(** [alice]'s duress password was entered. *)
Definition decoy : System :=
  snd (DuressAuthContext.login fresh alice_email alice_duress_password signed_out).

End Demo.

(** ** Vocabulary for the properties *)

(** [m] takes every system to one related to it by [R]. *)
Definition respects (R : System -> System -> Prop) {A} (m : M A) : Prop :=
  forall s, R s (snd (m s)).

(** Relations between a system and a later one. *)
Definition same_react (s s' : System) : Prop := react s' = react s.
Definition same_vault (s s' : System) : Prop :=
  inMemVault (react s') = inMemVault (react s).

Definition stored_private_key (id : jsstring) (s : System) : option jsstring :=
  encryptedPrivateKey <$> keyVaults (firestore s) !! id.
Definition same_stored_private_keys (s s' : System) : Prop :=
  forall id, stored_private_key id s' = stored_private_key id s.

(** [s'] continues [s]: the trace grew by events that all satisfy [ok]. *)
Definition extends (ok : event -> Prop) (s s' : System) : Prop :=
  exists evs, trace s' = trace s ++ evs /\ Forall ok evs.

(** A relation that holds across lost requests and drawn randomness. *)
Class Ambient (R : System -> System -> Prop) : Prop := {
  ambient_preorder :: PreOrder R;
  ambient_faults : forall s fs, R s (with_faults fs s);
  ambient_entropy : forall s g, R s (with_entropy g s);
  ambient_auth : forall s f, R s (with_auth f s)
}.

(** A relation that holds across any change of the stored documents. *)
Class FirestoreBlind (R : System -> System -> Prop) : Prop :=
  firestore_blind : forall s f, R s (with_firestore f s).

(** When [m] is rejected the component state is as it was. *)
Definition fails_clean {A} (m : M A) : Prop :=
  forall s e, fst (m s) = Err e -> react (snd (m s)) = react s.

(** [m] is always fulfilled. *)
Definition never_fails {A} (m : M A) : Prop :=
  forall s, is_ok (fst (m s)) = true.

(** Neither an unlock attempt nor a sign-out. *)
Definition harmless (e : event) : Prop :=
  match e with
  | DecryptWithAES _ _ | SignOut => False
  | _ => True
  end.

(** An event that is no call into the real vault or the real session. *)
Definition decoy_safe (e : event) : Prop := touches_real_vault e = false.

(** An [updateDoc] that names only [encryptedSharedSecrets]. *)
Definition secrets_only (e : event) : Prop :=
  match e with
  | UpdateDoc _ fields =>
      update_encryptedPrivateKey fields = None
      /\ is_Some (update_encryptedSharedSecrets fields)
  | _ => True
  end.

(** An [updateDoc] that names both fields of the vault record. *)
Definition both_fields (e : event) : Prop :=
  match e with
  | UpdateDoc _ fields =>
      is_Some (update_encryptedPrivateKey fields)
      /\ is_Some (update_encryptedSharedSecrets fields)
  | _ => True
  end.

(** The stored [encryptedSharedSecrets] of a vault record. *)
Definition persisted_secrets (id : jsstring) (s : System) : option jsstring :=
  encryptedSharedSecrets <$> keyVaults (firestore s) !! id.

(** Between [s] and [s'] the write of [packed] as the secrets of [id] was
    requested, naming that one field, and the stored record carries it. *)
Definition written (id packed : jsstring) (s s' : System) : Prop :=
  In (UpdateDoc id (mkKeyVaultUpdate None (Some packed))) (events_since s s')
  /\ persisted_secrets id s' = Some packed.

(** [m] is a shared-secret update as the code performs it: whatever it
    writes names [encryptedSharedSecrets] alone, and no stored
    [encryptedPrivateKey] changes. *)
Definition secrets_update {A} (m : M A) : Prop :=
  respects (extends secrets_only) m /\ respects same_stored_private_keys m.

(** [packed] is the ciphertext, under the master key of [vault], of the
    serialization of the whole map of [vault] with [chatId] set to [secret]. *)
Definition freshly_serialized `{Primitives} `{Host}
    (vault : InMemVault) (chatId secret packed : jsstring) : Prop :=
  exists g, fst (encryptWithAES (masterKey vault)
                   (JSON_stringify (<[chatId := secret]> (sharedSecrets vault))) g)
            = Ok packed.

(** A rejected [m] leaves the component state as it was; a fulfilled [m]
    has had its write go through. *)
Definition memory_follows_storage {A} (cl : ReactState) (m : M A) : Prop :=
  forall s,
    match m s with
    | (Err _, s') => react s' = react s
    | (Ok _, s') =>
        exists user packed, currentUser cl = Some user /\ written (uid user) packed s s'
    end.

(** Between [s] and [s'] a decryption was attempted and failed. *)
Definition decryption_failed `{Primitives} (s s' : System) : Prop :=
  exists key data,
    In (DecryptWithAES key data) (events_since s s')
    /\ is_ok (decryptWithAES key data) = false.

(** The in-memory vault of [s'] is null, or the one [s] already had. *)
Definition no_vault_installed (s s' : System) : Prop :=
  inMemVault (react s') = None \/ inMemVault (react s') = inMemVault (react s).

(** The forced logout has run between [s] and [s']: in a decoy closure it
    is the in-memory reset, otherwise the external sign-out call. *)
Definition logged_out (decoy : bool) (s s' : System) : Prop :=
  if decoy
  then currentUser (react s') = None /\ userProfile (react s') = None
       /\ inMemVault (react s') = None /\ isDecoyMode (react s') = false
  else In SignOut (events_since s s').

(** How a login whose unlock failed ends: rejected, nothing installed,
    logged out; the rejection is ["Invalid password."] unless the sign-out
    request itself was lost. *)
Definition unlock_failure {A} (decoy : bool) (s : System) (r : result A) (s' : System) : Prop :=
  is_ok r = false
  /\ no_vault_installed s s'
  /\ logged_out decoy s s'
  /\ (r = Err (Error "Invalid password.")
      \/ (decoy = false /\ r = Err (FirebaseError "unavailable"))).

(** From [s], [m] only adds to the trace, and if a decryption it
    attempted failed it ends as a failed unlock. *)
Definition all_or_nothing_at `{Primitives} {A} (decoy : bool) (m : M A) (s : System) : Prop :=
  extends (fun _ => True) s (snd (m s))
  /\ (decryption_failed s (snd (m s)) -> unlock_failure decoy s (fst (m s)) (snd (m s))).

Definition all_or_nothing `{Primitives} {A} (decoy : bool) (m : M A) : Prop :=
  forall s, all_or_nothing_at decoy m s.

(** The component state after a reset to "unauthenticated". *)
Definition signed_out_state (r : ReactState) : ReactState :=
  mkReactState None None (loading r) None false.

(** What a logout does: in a decoy closure the in-memory reset and no
    call; otherwise the sign-out call, which clears the vault unless the
    request is lost. *)
Definition logs_out (decoy : bool) (lo : M unit) : Prop :=
  forall s,
    let r := fst (lo s) in
    let s' := snd (lo s) in
    if decoy
    then r = Ok tt /\ react s' = signed_out_state (react s) /\ trace s' = trace s
    else trace s' = trace s ++ [SignOut]
         /\ ((r = Ok tt /\ inMemVault (react s') = None)
             \/ (r = Err (FirebaseError "unavailable") /\ react s' = react s)).

(** A closure in which the decoy flag is down. *)
Definition without_decoy (cl : ReactState) : ReactState :=
  mkReactState (currentUser cl) (userProfile cl) (loading cl) (inMemVault cl) false.

(* ================================================================== *)
(** * Part II. Properties *)
(* ================================================================== *)

Local Ltac nlia := zify; Z.to_euclidean_division_equations; lia.

Example btoa_Man : Base64.btoa (js "Man") = Ok (js "TWFu").
Proof. reflexivity. Qed.
Example btoa_Ma : Base64.btoa (js "Ma") = Ok (js "TWE=").
Proof. reflexivity. Qed.
Example btoa_M : Base64.btoa (js "M") = Ok (js "TQ==").
Proof. reflexivity. Qed.
Example atob_TWE : Base64.atob (js "TWE") = Ok (js "Ma").
Proof. reflexivity. Qed.
Example atob_ws : Base64.atob (js " TQ = = ") = Ok (js "M").
Proof. reflexivity. Qed.
Example atob_bad : Base64.atob (js "TQ=") = Err (DOMException "InvalidCharacterError").
Proof. reflexivity. Qed.
Example split_ex : split colon (js "a:bc:") = [js "a"; js "bc"; js ""].
Proof. reflexivity. Qed.

(** ** Bytes and code units *)

Lemma byte_of_N_eq (b : byte) (x : N) : x mod 256 = Byte.to_N b -> byte_of_N x = b.
Proof.
  intros E. unfold byte_of_N. rewrite E, Byte.of_to_N. reflexivity.
Qed.

Lemma byte_of_to_N (b : byte) : byte_of_N (Byte.to_N b) = b.
Proof.
  apply byte_of_N_eq. pose proof (Byte.to_N_bounded b). nlia.
Qed.

Lemma to_N_byte_of_N (x : N) : Byte.to_N (byte_of_N x) = x mod 256.
Proof.
  unfold byte_of_N. destruct (Byte.of_N (x mod 256)) as [b|] eqn:E.
  - now apply Byte.to_of_N.
  - apply Byte.of_N_None_iff in E. nlia.
Qed.

Lemma charCodes_fromCharCodes (a : Uint8Array) : charCodes (fromCharCodes a) = a.
Proof.
  unfold charCodes, fromCharCodes. induction a as [|b a IH]; simpl.
  - reflexivity.
  - now rewrite byte_of_to_N, IH.
Qed.

Lemma fromCharCodes_latin1 (a : Uint8Array) :
  forallb (fun c => c <=? 255) (fromCharCodes a) = true.
Proof.
  induction a as [|b a IH]; simpl; [reflexivity|].
  rewrite IH, andb_true_r. apply N.leb_le, Byte.to_N_bounded.
Qed.

(** ** [split] *)

Lemma split_nonempty (sep : N) (s : jsstring) : split sep s <> [].
Proof.
  destruct s as [|c s]; simpl; [discriminate|].
  destruct (c =? sep); [discriminate|]. destruct (split sep s); discriminate.
Qed.

Lemma split_without (sep : N) (s : jsstring) :
  Forall (fun c => c <> sep) s -> split sep s = [s].
Proof.
  induction 1 as [|c s Hc _ IH]; simpl; [reflexivity|].
  apply N.eqb_neq in Hc. now rewrite Hc, IH.
Qed.

Lemma split_at_first (sep : N) (s1 s2 : jsstring) :
  Forall (fun c => c <> sep) s1 ->
  split sep (s1 ++ sep :: s2) = s1 :: split sep s2.
Proof.
  induction 1 as [|c s Hc _ IH]; simpl.
  - now rewrite N.eqb_refl.
  - apply N.eqb_neq in Hc. now rewrite Hc, IH.
Qed.

(** ** Base64 *)

Section list_ind3.
Variables (A : Type) (P : list A -> Prop).
Hypothesis P0 : P [].
Hypothesis P1 : forall a, P [a].
Hypothesis P2 : forall a b, P [a; b].
Hypothesis P3 : forall a b c rest, P rest -> P (a :: b :: c :: rest).

Lemma list_ind3 : forall l, P l.
Proof.
  fix IH 1. intros [|a [|b [|c rest]]];
    [apply P0 | apply P1 | apply P2 | apply P3, IH].
Qed.
End list_ind3.

Lemma sextet_char_roundtrip (s : N) :
  s < 64 -> Base64.sextet_of_char (Base64.char_of_sextet s) = Some s.
Proof.
  intros Hs. unfold Base64.char_of_sextet, Base64.sextet_of_char.
  repeat match goal with
  | |- context [?a <? ?b] => destruct (N.ltb_spec a b)
  | |- context [?a <=? ?b] => destruct (N.leb_spec a b)
  | |- context [?a =? ?b] => destruct (N.eqb_spec a b)
  end; simpl; try (f_equal; lia); try lia.
Qed.

(** Every character of the alphabet is a letter, a digit, [+] or [/]. *)
Lemma char_of_sextet_alphabet (s : N) :
  let c := Base64.char_of_sextet s in
  c <> Base64.pad /\ c <> colon /\ Base64.is_ascii_whitespace c = false.
Proof.
  unfold Base64.char_of_sextet, Base64.pad, colon, Base64.is_ascii_whitespace.
  repeat match goal with
  | |- context [?a <? ?b] => destruct (N.ltb_spec a b)
  | |- context [N.eqb s ?b] => destruct (N.eqb_spec s b)
  end; cbn zeta; (split; [lia|split; [lia|]]);
  repeat (apply orb_false_intro); apply N.eqb_neq; lia.
Qed.

Lemma sextets_of_bytes_range (bs : Uint8Array) :
  Forall (fun s => s < 64) (Base64.sextets_of_bytes bs).
Proof.
  induction bs as [| a | a b | a b c rest IH] using list_ind3; simpl.
  - constructor.
  - pose proof (Byte.to_N_bounded a). repeat constructor; nlia.
  - pose proof (Byte.to_N_bounded a). pose proof (Byte.to_N_bounded b).
    repeat constructor; nlia.
  - pose proof (Byte.to_N_bounded a). pose proof (Byte.to_N_bounded b).
    pose proof (Byte.to_N_bounded c).
    repeat (constructor; [nlia|]). exact IH.
Qed.

Lemma sextets_chars (l : list N) :
  Forall (fun s => s < 64) l ->
  Base64.sextets (List.map Base64.char_of_sextet l) = Some l.
Proof.
  induction 1 as [|s l Hs _ IH]; simpl; [reflexivity|].
  now rewrite sextet_char_roundtrip, IH.
Qed.

Lemma bytes_of_sextets_of_bytes (bs : Uint8Array) :
  Base64.bytes_of_sextets (Base64.sextets_of_bytes bs) = bs.
Proof.
  induction bs as [| a | a b | a b c rest IH] using list_ind3.
  - reflexivity.
  - pose proof (Byte.to_N_bounded a). cbn [Base64.sextets_of_bytes Base64.bytes_of_sextets].
    f_equal. apply byte_of_N_eq. nlia.
  - pose proof (Byte.to_N_bounded a). pose proof (Byte.to_N_bounded b).
    cbn [Base64.sextets_of_bytes Base64.bytes_of_sextets].
    f_equal; [|f_equal]; apply byte_of_N_eq; nlia.
  - pose proof (Byte.to_N_bounded a). pose proof (Byte.to_N_bounded b).
    pose proof (Byte.to_N_bounded c).
    cbn [Base64.sextets_of_bytes Base64.bytes_of_sextets]. rewrite IH.
    f_equal; [|f_equal; [|f_equal]]; apply byte_of_N_eq; nlia.
Qed.

Lemma mod_succ3 (n : nat) : (S (S (S n)) mod 3 = n mod 3)%nat.
Proof. replace (S (S (S n))) with (n + 1 * 3)%nat by lia. apply Nat.Div0.mod_add. Qed.

Lemma mod_succ4 (n : nat) : (S (S (S (S n))) mod 4 = n mod 4)%nat.
Proof. replace (S (S (S (S n)))) with (n + 1 * 4)%nat by lia. apply Nat.Div0.mod_add. Qed.

Lemma sextets_of_bytes_length (bs : Uint8Array) :
  ((length (Base64.sextets_of_bytes bs) + (3 - length bs mod 3) mod 3) mod 4 = 0
   /\ length (Base64.sextets_of_bytes bs) mod 4 <> 1)%nat.
Proof.
  induction bs as [| a | a b | a b c rest IH] using list_ind3;
    cbn [Base64.sextets_of_bytes length]; try (cbn; lia).
  rewrite mod_succ3, mod_succ4.
  replace (S (S (S (S (length (Base64.sextets_of_bytes rest)))))
           + (3 - length rest mod 3) mod 3)%nat
    with (length (Base64.sextets_of_bytes rest) + (3 - length rest mod 3) mod 3 + 1 * 4)%nat
    by lia.
  now rewrite Nat.Div0.mod_add.
Qed.

Lemma filter_all {A} (f : A -> bool) (l : list A) :
  Forall (fun x => f x = true) l -> List.filter f l = l.
Proof.
  induction 1 as [|x l Hx _ IH]; simpl; [reflexivity|]. now rewrite Hx, IH.
Qed.

Lemma encode_chars (bs : Uint8Array) :
  Forall (fun c => c <> colon /\ Base64.is_ascii_whitespace c = false) (Base64.encode bs).
Proof.
  unfold Base64.encode, Base64.padding. apply Forall_app. split.
  - apply List.Forall_forall. intros c Hc. apply in_map_iff in Hc as (s & <- & _).
    pose proof (char_of_sextet_alphabet s) as (_ & ? & ?). now split.
  - apply List.Forall_forall. intros c Hc. apply repeat_spec in Hc. subst c.
    split; [discriminate | reflexivity].
Qed.

Lemma strip_padding_encode (bs : Uint8Array) :
  Base64.strip_padding (Base64.encode bs)
  = List.map Base64.char_of_sextet (Base64.sextets_of_bytes bs).
Proof.
  unfold Base64.strip_padding, Base64.encode, Base64.padding.
  destruct (sextets_of_bytes_length bs) as [Hlen _].
  rewrite length_app, length_map, repeat_length.
  apply Nat.eqb_eq in Hlen. rewrite Hlen.
  set (chars := List.map Base64.char_of_sextet (Base64.sextets_of_bytes bs)).
  assert (Hlast : forall c r, rev chars = c :: r -> (c =? Base64.pad) = false).
  { intros c r E. assert (Hin : In c (rev chars)) by (rewrite E; now left).
    apply in_rev, in_map_iff in Hin as (s & <- & _).
    apply N.eqb_neq, char_of_sextet_alphabet. }
  assert (Hk : ((3 - length bs mod 3) mod 3 < 3)%nat) by (apply Nat.mod_upper_bound; lia).
  destruct ((3 - length bs mod 3) mod 3)%nat as [|[|[|k]]]; [| | |lia]; cbn [repeat].
  - rewrite app_nil_r. destruct (rev chars) as [|c r] eqn:E; [reflexivity|].
    now rewrite (Hlast c r eq_refl).
  - rewrite rev_app_distr. cbn [rev app]. rewrite N.eqb_refl.
    destruct (rev chars) as [|c r] eqn:E.
    + apply (f_equal (@rev N)) in E. rewrite rev_involutive in E. now rewrite E.
    + rewrite (Hlast c r eq_refl), <- E. apply rev_involutive.
  - rewrite rev_app_distr. cbn [rev app]. rewrite !N.eqb_refl. apply rev_involutive.
Qed.

Theorem base64_decode_encode (bs : Uint8Array) :
  Base64.decode (Base64.encode bs) = Some bs.
Proof.
  unfold Base64.decode.
  rewrite filter_all.
  2:{ eapply List.Forall_impl; [|apply encode_chars]. intros c [_ Hc]. cbn beta. now rewrite Hc. }
  rewrite strip_padding_encode, length_map.
  destruct (sextets_of_bytes_length bs) as [_ Hlen].
  apply Nat.eqb_neq in Hlen. rewrite Hlen.
  rewrite sextets_chars by apply sextets_of_bytes_range.
  cbn. now rewrite bytes_of_sextets_of_bytes.
Qed.

Lemma u8ToB64_encode (array : Uint8Array) : u8ToB64 array = Ok (Base64.encode array).
Proof.
  unfold u8ToB64, Base64.btoa.
  now rewrite fromCharCodes_latin1, charCodes_fromCharCodes.
Qed.

Lemma b64ToU8_encode (array : Uint8Array) : b64ToU8 (Base64.encode array) = Ok array.
Proof.
  unfold b64ToU8, Base64.atob. rewrite base64_decode_encode. cbn.
  now rewrite charCodes_fromCharCodes.
Qed.

(** [b64ToU8] undoes [u8ToB64]. *)
Theorem b64ToU8_u8ToB64 (array : Uint8Array) :
  exists base64, u8ToB64 array = Ok base64 /\ b64ToU8 base64 = Ok array.
Proof.
  exists (Base64.encode array). split; [apply u8ToB64_encode | apply b64ToU8_encode].
Qed.

Lemma encode_no_colon (bs : Uint8Array) :
  Forall (fun c => c <> colon) (Base64.encode bs).
Proof.
  eapply List.Forall_impl; [|apply encode_chars]. now intros c [Hc _].
Qed.

Example sha256_empty :
  Sha256.hex (Sha256.digest []) = js "e3b0c44298fc1c149afbf4c8996fb92427ae41e4649b934ca495991b7852b855".
Proof. vm_compute. reflexivity. Qed.
Example sha256_abc :
  Sha256.hex (Sha256.digest (Utf8.TextEncoder_encode (js "abc")))
  = js "ba7816bf8f01cfea414140de5dae2223b00361a396177a9cb410ff61f20015ad".
Proof. vm_compute. reflexivity. Qed.
Example sha256_two_blocks :
  Sha256.hex (Sha256.digest (Utf8.TextEncoder_encode
    (js "abcdbcdecdefdefgefghfghighijhijkijkljklmklmnlmnomnopnopq")))
  = js "248d6a61d20638b8e5c026930c3e6039a33ce45964ff2167f6ecedd419db06c1".
Proof. vm_compute. reflexivity. Qed.
Example utf8_euro : Utf8.TextEncoder_encode [0x20AC] = [xe2; x82; xac].
Proof. reflexivity. Qed.
Example utf8_emoji : Utf8.TextEncoder_encode [0xD83D; 0xDE00] = [xf0; x9f; x98; x80].
Proof. reflexivity. Qed.
Example utf8_lone : Utf8.TextEncoder_encode [0xD83D; 97] = [xef; xbf; xbd; x61].
Proof. reflexivity. Qed.
Example utf8_dec_emoji : Utf8.TextDecoder_decode [xf0; x9f; x98; x80; xe2; x82; xac] = [0xD83D; 0xDE00; 0x20AC].
Proof. reflexivity. Qed.
Example utf8_dec_bad : Utf8.TextDecoder_decode [xe2; x82; x41; xc0; xed; xa0; x80] = [0xFFFD; 0x41; 0xFFFD; 0xFFFD; 0xFFFD; 0xFFFD].
Proof. reflexivity. Qed.
Example utf8_dec_bom : Utf8.TextDecoder_decode [xef; xbb; xbf; x61] = [97].
Proof. reflexivity. Qed.

(** ** UTF-8: decoding what was encoded *)

Local Ltac tests :=
  repeat match goal with
  | |- context [?a <=? ?b] => destruct (N.leb_spec a b); try lia
  | |- context [?a <? ?b] => destruct (N.ltb_spec a b); try lia
  end.

Lemma decode_lead_1 (b : N) :
  b <= 0x7F -> Utf8.decode_lead b = (Utf8.decoder_init, [b]).
Proof. intros. unfold Utf8.decode_lead. tests. reflexivity. Qed.

Lemma decode_lead_2 (b : N) :
  0xC2 <= b <= 0xDF ->
  Utf8.decode_lead b = (Utf8.mkDecoder (b mod 32) 0 1 0x80 0xBF, []).
Proof. intros. unfold Utf8.decode_lead. tests. reflexivity. Qed.

Lemma decode_lead_3 (b : N) :
  0xE0 <= b <= 0xEF ->
  Utf8.decode_lead b
  = (Utf8.mkDecoder (b mod 16) 0 2
       (if b =? 0xE0 then 0xA0 else 0x80) (if b =? 0xED then 0x9F else 0xBF), []).
Proof. intros. unfold Utf8.decode_lead. tests. reflexivity. Qed.

Lemma decode_lead_4 (b : N) :
  0xF0 <= b <= 0xF4 ->
  Utf8.decode_lead b
  = (Utf8.mkDecoder (b mod 8) 0 3
       (if b =? 0xF0 then 0x90 else 0x80) (if b =? 0xF4 then 0x8F else 0xBF), []).
Proof. intros. unfold Utf8.decode_lead. tests. reflexivity. Qed.

Lemma decode_byte_open (b : N) :
  Utf8.decode_byte Utf8.decoder_init b = Utf8.decode_lead b.
Proof. reflexivity. Qed.

Lemma decode_byte_last (cp seen needed lo hi b : N) :
  needed <> 0 -> lo <= b <= hi -> seen + 1 = needed ->
  Utf8.decode_byte (Utf8.mkDecoder cp seen needed lo hi) b
  = (Utf8.decoder_init, [cp * 64 + b mod 64]).
Proof.
  intros Hn Hb Hs. unfold Utf8.decode_byte. cbn [Utf8.bytes_needed Utf8.lower_boundary
    Utf8.upper_boundary Utf8.code_point Utf8.bytes_seen].
  apply N.eqb_neq in Hn. rewrite Hn.
  replace (b <? lo) with false by (symmetry; apply N.ltb_ge; lia).
  replace (hi <? b) with false by (symmetry; apply N.ltb_ge; lia).
  apply N.eqb_eq in Hs. now rewrite Hs.
Qed.

Lemma decode_byte_more (cp seen needed lo hi b : N) :
  needed <> 0 -> lo <= b <= hi -> seen + 1 <> needed ->
  Utf8.decode_byte (Utf8.mkDecoder cp seen needed lo hi) b
  = (Utf8.mkDecoder (cp * 64 + b mod 64) (seen + 1) needed 0x80 0xBF, []).
Proof.
  intros Hn Hb Hs. unfold Utf8.decode_byte. cbn [Utf8.bytes_needed Utf8.lower_boundary
    Utf8.upper_boundary Utf8.code_point Utf8.bytes_seen].
  apply N.eqb_neq in Hn. rewrite Hn.
  replace (b <? lo) with false by (symmetry; apply N.ltb_ge; lia).
  replace (hi <? b) with false by (symmetry; apply N.ltb_ge; lia).
  apply N.eqb_neq in Hs. now rewrite Hs.
Qed.

Lemma decode_2 (q1 q2 : N) (rest : Uint8Array) :
  2 <= q1 < 32 -> q2 < 64 ->
  Utf8.decode_from Utf8.decoder_init (byte_of_N (0xC0 + q1) :: byte_of_N (0x80 + q2) :: rest)
  = (q1 * 64 + q2) :: Utf8.decode_from Utf8.decoder_init rest.
Proof.
  intros H1 H2. cbn [app Utf8.decode_from]. rewrite !to_N_byte_of_N, decode_byte_open.
  rewrite !N.mod_small by lia.
  rewrite decode_lead_2 by lia. rewrite decode_byte_last by lia.
  cbn [app]. f_equal. nlia.
Qed.

Lemma decode_3 (q1 q2 q3 : N) (rest : Uint8Array) :
  q1 < 16 -> q2 < 64 -> q3 < 64 -> (q1 = 0 -> 32 <= q2) -> (q1 = 13 -> q2 < 32) ->
  Utf8.decode_from Utf8.decoder_init
    (byte_of_N (0xE0 + q1) :: byte_of_N (0x80 + q2) :: byte_of_N (0x80 + q3) :: rest)
  = (q1 * 4096 + q2 * 64 + q3) :: Utf8.decode_from Utf8.decoder_init rest.
Proof.
  intros H1 H2 H3 Hlo Hhi. cbn [app Utf8.decode_from].
  rewrite !to_N_byte_of_N, decode_byte_open.
  rewrite !N.mod_small by lia.
  rewrite decode_lead_3 by lia.
  destruct (N.eqb_spec (224 + q1) 224); destruct (N.eqb_spec (224 + q1) 237);
    (rewrite decode_byte_more by lia); (rewrite decode_byte_last by lia);
    cbn [app]; f_equal; nlia.
Qed.

Lemma decode_4 (q1 q2 q3 q4 : N) (rest : Uint8Array) :
  q1 < 5 -> q2 < 64 -> q3 < 64 -> q4 < 64 -> (q1 = 0 -> 16 <= q2) -> (q1 = 4 -> q2 < 16) ->
  Utf8.decode_from Utf8.decoder_init
    (byte_of_N (0xF0 + q1) :: byte_of_N (0x80 + q2) :: byte_of_N (0x80 + q3)
     :: byte_of_N (0x80 + q4) :: rest)
  = (q1 * 262144 + q2 * 4096 + q3 * 64 + q4) :: Utf8.decode_from Utf8.decoder_init rest.
Proof.
  intros H1 H2 H3 H4 Hlo Hhi. cbn [app Utf8.decode_from].
  rewrite !to_N_byte_of_N, decode_byte_open.
  rewrite !N.mod_small by lia.
  rewrite decode_lead_4 by lia.
  destruct (N.eqb_spec (240 + q1) 240); destruct (N.eqb_spec (240 + q1) 244);
    (rewrite decode_byte_more by lia); (rewrite decode_byte_more by lia);
    (rewrite decode_byte_last by lia);
    cbn [app]; f_equal; nlia.
Qed.

Lemma decode_encode_scalar (cp : N) (rest : Uint8Array) :
  Utf8.scalar_value cp ->
  Utf8.decode_from Utf8.decoder_init (Utf8.encode_scalar cp ++ rest)
  = cp :: Utf8.decode_from Utf8.decoder_init rest.
Proof.
  intros [Hmax Hsur]. unfold Utf8.encode_scalar.
  destruct (N.ltb_spec cp 0x80); [|destruct (N.ltb_spec cp 0x800); [|destruct (N.ltb_spec cp 0x10000)]];
  cbn [app].
  - cbn [Utf8.decode_from]. rewrite to_N_byte_of_N, decode_byte_open.
    rewrite N.mod_small by lia. rewrite decode_lead_1 by lia. reflexivity.
  - rewrite decode_2 by nlia. f_equal. nlia.
  - rewrite decode_3 by nlia. f_equal. nlia.
  - rewrite decode_4 by nlia. f_equal. nlia.
Qed.

Lemma decode_encode_scalars (cps : list N) :
  Forall Utf8.scalar_value cps ->
  Utf8.decode_from Utf8.decoder_init (flat_map Utf8.encode_scalar cps) = cps.
Proof.
  induction 1 as [|cp cps Hcp _ IH]; cbn [flat_map]; [reflexivity|].
  now rewrite decode_encode_scalar, IH.
Qed.

Lemma surrogate_tests (c : N) :
  (Utf8.is_lead_surrogate c = true <-> 0xD800 <= c <= 0xDBFF)
  /\ (Utf8.is_trail_surrogate c = true <-> 0xDC00 <= c <= 0xDFFF).
Proof.
  unfold Utf8.is_lead_surrogate, Utf8.is_trail_surrogate.
  rewrite !andb_true_iff, !N.leb_le. tauto.
Qed.

Lemma well_formed_scalars (s : jsstring) :
  Utf8.well_formed s = true ->
  Forall Utf8.scalar_value (Utf8.scalars s)
  /\ flat_map Utf8.code_units (Utf8.scalars s) = s.
Proof.
  remember (length s) as n eqn:Hn. revert s Hn.
  induction n as [n IH] using lt_wf_ind. intros s Hn Hwf.
  destruct s as [|c rest]; [split; [constructor | reflexivity]|].
  cbn [Utf8.well_formed Utf8.scalars] in *.
  destruct (surrogate_tests c) as [Hlead Htrail].
  destruct (Utf8.is_lead_surrogate c) eqn:Elead.
  - destruct rest as [|d rest']; [discriminate|].
    apply andb_true_iff in Hwf as [Hd Hwf]. rewrite Hd.
    apply (proj1 (proj2 (surrogate_tests d))) in Hd.
    apply proj1 in Hlead. specialize (Hlead eq_refl).
    destruct (IH (length rest')) with (s := rest') as [IH1 IH2];
      [subst n; cbn; lia | reflexivity | exact Hwf |].
    split.
    + constructor; [|exact IH1]. unfold Utf8.scalar_value. nlia.
    + cbn [flat_map]. rewrite IH2. unfold Utf8.code_units.
      replace (_ <? 65536) with false by (symmetry; apply N.ltb_ge; nlia).
      cbn [app]. f_equal; [nlia|]. f_equal. nlia.
  - apply andb_true_iff in Hwf as [Hwf Hrest].
    apply andb_true_iff in Hwf as [Hc Hnt].
    apply negb_true_iff in Hnt. rewrite Hnt.
    apply N.ltb_lt in Hc.
    destruct (IH (length rest)) with (s := rest) as [IH1 IH2];
      [subst n; cbn; lia | reflexivity | exact Hrest |].
    split.
    + constructor; [|exact IH1]. unfold Utf8.scalar_value. split; [lia|].
      intros Hs. destruct (N.le_gt_cases c 0xDBFF).
      * assert (false = true) by (apply Hlead; lia). congruence.
      * assert (Utf8.is_trail_surrogate c = true) by (apply Htrail; lia). congruence.
    + cbn [flat_map]. rewrite IH2. unfold Utf8.code_units.
      apply N.ltb_lt in Hc. now rewrite Hc.
Qed.

Lemma strip_BOM_scalars (s : jsstring) :
  Utf8.well_formed s = true -> Utf8.starts_with_BOM s = false ->
  Utf8.strip_BOM (Utf8.scalars s) = Utf8.scalars s.
Proof.
  destruct s as [|c rest]; [reflexivity|]. cbn [Utf8.well_formed Utf8.scalars Utf8.starts_with_BOM].
  intros Hwf Hbom. destruct (Utf8.is_lead_surrogate c) eqn:Elead.
  - destruct rest as [|d rest']; [discriminate|].
    apply andb_true_iff in Hwf as [Hd _]. rewrite Hd. cbn [Utf8.strip_BOM].
    apply surrogate_tests in Elead. apply surrogate_tests in Hd.
    replace (_ =? Utf8.BOM) with false; [reflexivity|].
    symmetry. apply N.eqb_neq. unfold Utf8.BOM. nlia.
  - apply andb_true_iff in Hwf as [Hwf _]. apply andb_true_iff in Hwf as [_ Hnt].
    apply negb_true_iff in Hnt. rewrite Hnt. cbn [Utf8.strip_BOM]. now rewrite Hbom.
Qed.

(** Decoding the UTF-8 encoding of a string gives the string back when its
    surrogates are paired and it does not begin with U+FEFF. *)
Theorem TextDecoder_TextEncoder (s : jsstring) :
  Utf8.well_formed s = true -> Utf8.starts_with_BOM s = false ->
  Utf8.TextDecoder_decode (Utf8.TextEncoder_encode s) = s.
Proof.
  intros Hwf Hbom. unfold Utf8.TextDecoder_decode, Utf8.TextEncoder_encode.
  destruct (well_formed_scalars s Hwf) as [Hsc Hunits].
  now rewrite decode_encode_scalars, strip_BOM_scalars.
Qed.

(** ** SHA-256 and the salt *)

Lemma be_bytes_length (width : nat) (x : N) : length (Sha256.be_bytes width x) = width.
Proof. unfold Sha256.be_bytes. now rewrite length_map, length_seq. Qed.

Lemma digest_length (data : Uint8Array) : length (Sha256.digest data) = 32%nat.
Proof.
  unfold Sha256.digest, Sha256.output. rewrite !length_app, !be_bytes_length. reflexivity.
Qed.

Example salt_alice :
  Sha256.hex (getSaltForUser (js "alice@example.com"))
  = js "ff8d9819fc0e12bf0d24892e45987e24".
Proof. vm_compute. reflexivity. Qed.

(** ** The stand-in cipher is correct *)

Lemma demo_cipher_correct : @cipher_correct Demo.primitives.
Proof.
  intros key iv data. cbn [aes_gcm_decrypt aes_gcm_encrypt Demo.primitives].
  unfold Demo.decrypt, Demo.encrypt.
  assert (Hlen : length (Demo.tag key iv data) = 16%nat).
  { unfold Demo.tag. rewrite length_take, digest_length. reflexivity. }
  cbn zeta.
  replace (drop 16 (Demo.tag key iv data ++ data)) with data
    by (rewrite <- Hlen; symmetry; apply drop_app_length).
  replace (take 16 (Demo.tag key iv data ++ data)) with (Demo.tag key iv data)
    by (rewrite <- Hlen at 1; symmetry; apply take_app_length).
  now rewrite bool_decide_eq_true_2.
Qed.

(** ** Packed ciphertexts *)

Section PackedCiphertext.
Context `{Primitives}.

Lemma split_packed (iv ciphertext : Uint8Array) :
  split colon (Base64.encode iv ++ colon :: Base64.encode ciphertext)
  = [Base64.encode iv; Base64.encode ciphertext].
Proof.
  rewrite split_at_first by apply encode_no_colon.
  now rewrite split_without by apply encode_no_colon.
Qed.

(** What [encryptWithAES] returns under an AES-GCM key. *)
Lemma encryptWithAES_packed (key : CryptoKey) (data : jsstring) (g : rng) :
  key_algorithm key = AES_GCM ->
  let iv := fst (getRandomValues 12 g) in
  encryptWithAES key data g
  = (Ok (Base64.encode iv ++ colon ::
         Base64.encode (aes_gcm_encrypt (key_data key) iv (Utf8.TextEncoder_encode data))),
     snd (getRandomValues 12 g)).
Proof.
  intros Halg. unfold encryptWithAES, subtle_encrypt.
  destruct (getRandomValues 12 g) as [iv g'] eqn:E. cbn [fst snd].
  rewrite Halg. cbn [mbind result_bind]. rewrite !u8ToB64_encode. reflexivity.
Qed.

(** What [decryptWithAES] does with a packed pair under an AES-GCM key. *)
Lemma decryptWithAES_packed (key : CryptoKey) (iv ciphertext : Uint8Array) :
  key_algorithm key = AES_GCM ->
  decryptWithAES key (Base64.encode iv ++ colon :: Base64.encode ciphertext)
  = match aes_gcm_decrypt (key_data key) iv ciphertext with
    | Some plain => Ok (Utf8.TextDecoder_decode plain)
    | None => Err (DOMException "OperationError")
    end.
Proof.
  intros Halg. unfold decryptWithAES. rewrite split_packed.
  rewrite !b64ToU8_encode. cbn [mbind result_bind].
  unfold subtle_decrypt. rewrite Halg.
  now destruct (aes_gcm_decrypt (key_data key) iv ciphertext).
Qed.

(** Decrypting what was encrypted decodes the encoding of the payload. *)
Lemma decrypt_encrypt (key : CryptoKey) (data : jsstring) (g : rng) :
  cipher_correct -> key_algorithm key = AES_GCM ->
  exists packed,
    fst (encryptWithAES key data g) = Ok packed
    /\ decryptWithAES key packed
       = Ok (Utf8.TextDecoder_decode (Utf8.TextEncoder_encode data)).
Proof.
  intros Hcorrect Halg. rewrite encryptWithAES_packed by assumption.
  eexists. split; [reflexivity|].
  rewrite decryptWithAES_packed by assumption. now rewrite Hcorrect.
Qed.

End PackedCiphertext.

(** C4, as the code has it.  For every email address the salt is the
    first 16 bytes of the SHA-256 hash of the UTF-8 encoding of the
    address exactly as given (no case folding), and it is 16 bytes long.
    The salt is a function of the address alone, so repeated calls agree. *)
Theorem C4_salt_of_email_as_given (email_ : jsstring) :
  getSaltForUser email_ = firstn 16 (Sha256.digest (Utf8.TextEncoder_encode email_))
  /\ length (getSaltForUser email_) = 16%nat.
Proof.
  split; [reflexivity|].
  unfold getSaltForUser. rewrite length_take, digest_length. reflexivity.
Qed.

(** C4 fails as stated: two addresses that differ only in letter case
    (they have the same lower-cased form) receive different salts. *)
Lemma C4_letter_case_changes_salt :
  Demo.ascii_toLowerCase (js "Alice@Example.com") = js "alice@example.com"
  /\ getSaltForUser (js "Alice@Example.com") <> getSaltForUser (js "alice@example.com").
Proof.
  split; [reflexivity|]. vm_compute. discriminate.
Qed.

(** C7, as the code has it.  Under a correct cipher and an AES-GCM key,
    encrypting a string succeeds, and decrypting the packed result returns
    exactly the string, provided its surrogates are paired and it does not
    begin with U+FEFF. *)
Theorem C7_decrypt_encrypt_roundtrip `{Primitives}
    (key : CryptoKey) (data : jsstring) (g : rng) :
  cipher_correct -> key_algorithm key = AES_GCM ->
  Utf8.well_formed data = true -> Utf8.starts_with_BOM data = false ->
  exists packed,
    fst (encryptWithAES key data g) = Ok packed /\ decryptWithAES key packed = Ok data.
Proof.
  intros Hcorrect Halg Hwf Hbom.
  destruct (decrypt_encrypt key data g Hcorrect Halg) as (packed & Henc & Hdec).
  exists packed. split; [exact Henc|].
  now rewrite Hdec, TextDecoder_TextEncoder.
Qed.

Lemma C7_decrypt_encrypt_roundtrip_witness :
  exists packed,
    fst (encryptWithAES Demo.aes_key (js "{}") Demo.counting_rng) = Ok packed
    /\ decryptWithAES Demo.aes_key packed = Ok (js "{}").
Proof.
  apply (@C7_decrypt_encrypt_roundtrip Demo.primitives);
    [apply demo_cipher_correct | reflexivity | reflexivity | reflexivity].
Defined.

(** C7 fails as stated: the string U+FEFF "a" comes back as "a", the
    decoder having dropped the leading byte order mark. *)
Lemma C7_leading_BOM_is_lost :
  exists packed,
    fst (encryptWithAES Demo.aes_key [0xFEFF; 97] Demo.counting_rng) = Ok packed
    /\ decryptWithAES Demo.aes_key packed = Ok [97]
    /\ decryptWithAES Demo.aes_key packed <> Ok [0xFEFF; 97].
Proof.
  destruct (decrypt_encrypt Demo.aes_key [0xFEFF; 97] Demo.counting_rng
              demo_cipher_correct eq_refl) as (packed & Henc & Hdec).
  exists packed. split; [exact Henc|].
  assert (E : decryptWithAES Demo.aes_key packed = Ok [97]) by (rewrite Hdec; reflexivity).
  split; [exact E|]. rewrite E. discriminate.
Qed.

(** C8.  Whatever the cipher and the key, an input that [split(':')] does
    not cut into exactly two segments makes [decryptWithAES] fail with the
    format error; no plaintext is returned. *)
Theorem C8_decrypt_rejects_malformed `{Primitives} (key : CryptoKey) (encryptedData : jsstring) :
  length (split colon encryptedData) <> 2%nat ->
  decryptWithAES key encryptedData = Err (Error "Invalid encrypted data format").
Proof.
  intros Hparts. unfold decryptWithAES.
  destruct (split colon encryptedData) as [|part0 [|part1 [|part2 parts]]];
    try reflexivity. now contradict Hparts.
Qed.

Lemma C8_decrypt_rejects_malformed_witness :
  decryptWithAES Demo.aes_key (js "AAAA:BBBB:CCCC") = Err (Error "Invalid encrypted data format").
Proof.
  apply (@C8_decrypt_rejects_malformed Demo.primitives). vm_compute. lia.
Defined.

(** ** The model at work *)

Example login_unlocks :
  fst (DuressAuthContext.login Demo.fresh Demo.alice_email Demo.alice_password Demo.signed_out)
  = Ok tt
  /\ inMemVault (react Demo.unlocked)
     = Some (mkInMemVault Demo.alice_master_key Demo.alice_private_key ∅)
  /\ isDecoyMode (react Demo.unlocked) = false
  /\ currentUser (react Demo.unlocked) = Some Demo.alice.
Proof. vm_compute. repeat split; reflexivity. Qed.

Example login_wrong_password :
  fst (DuressAuthContext.login Demo.fresh Demo.alice_email (js "wrongpass") Demo.signed_out)
  = Err (FirebaseError "auth/invalid-credential").
Proof. vm_compute. reflexivity. Qed.

Example login_duress :
  fst (DuressAuthContext.login Demo.fresh Demo.alice_email Demo.alice_duress_password Demo.signed_out)
  = Ok tt
  /\ inMemVault (react Demo.decoy) = None
  /\ isDecoyMode (react Demo.decoy) = true
  /\ trace Demo.decoy = [QueryUsers "email" Demo.alice_email; HashPasswordForStorage].
Proof. vm_compute. repeat split; reflexivity. Qed.

Example login_damaged :
  fst (DuressAuthContext.login Demo.fresh Demo.alice_email Demo.alice_password Demo.damaged)
  = Err (Error "Invalid password.").
Proof. vm_compute. reflexivity. Qed.

(** ** Reasoning about asynchronous computations *)

Lemma bind_eq {A B} (m : M A) (k : A -> M B) (s : System) :
  (m ≫= k) s = match m s with (Ok a, s') => k a s' | (Err e, s') => (Err e, s') end.
Proof. reflexivity. Qed.

Lemma try_catch_rethrow {A} (m : M A) (s : System) :
  try_catch m (fun e => throw e) s = m s.
Proof. unfold try_catch, throw. now destruct (m s) as [[a|e] s']. Qed.

Section Respects.
Context (R : System -> System -> Prop) `{!Ambient R}.

Lemma respects_ret {A} (a : A) : respects R (mret a).
Proof. intros s. reflexivity. Qed.

Lemma respects_throw {A} (e : error) : respects R (@throw A e).
Proof. intros s. reflexivity. Qed.

Lemma respects_lift {A} (r : result A) : respects R (lift r).
Proof. intros s. reflexivity. Qed.

Lemma respects_bind {A B} (m : M A) (k : A -> M B) :
  respects R m -> (forall a, respects R (k a)) -> respects R (m ≫= k).
Proof.
  intros Hm Hk s. rewrite bind_eq. specialize (Hm s).
  destruct (m s) as [[a|e] s1]; cbn [snd] in *; [|exact Hm].
  etransitivity; [exact Hm | apply Hk].
Qed.

Lemma respects_try_catch {A} (body : M A) (handler : error -> M A) :
  respects R body -> (forall e, respects R (handler e)) -> respects R (try_catch body handler).
Proof.
  intros Hm Hk s. unfold try_catch. specialize (Hm s).
  destruct (body s) as [[a|e] s1]; cbn [snd] in *; [exact Hm|].
  etransitivity; [exact Hm | apply Hk].
Qed.

Lemma respects_try_finally {A} (body : M A) (cleanup : M unit) :
  respects R body -> respects R cleanup -> respects R (try_finally body cleanup).
Proof.
  intros Hm Hk s. unfold try_finally. specialize (Hm s).
  destruct (body s) as [r s1]. specialize (Hk s1).
  destruct (cleanup s1) as [[[]|e] s2]; cbn [snd] in *; etransitivity; eassumption.
Qed.

Lemma respects_detached {A} (m : M A) : respects R m -> respects R (detached m).
Proof. intros Hm s. apply Hm. Qed.

Lemma respects_request {A} (serve : M A) : respects R serve -> respects R (request serve).
Proof.
  intros Hs s. unfold request. destruct (lost s); cbn [snd].
  - apply ambient_faults.
  - etransitivity; [apply (ambient_faults s) | apply Hs].
Qed.

Lemma respects_random {A} (f : rng -> result A * rng) : respects R (random f).
Proof.
  intros s. unfold random. destruct (f (entropy s)) as [r g]. apply ambient_entropy.
Qed.

End Respects.

Global Instance same_react_ambient : Ambient same_react.
Proof.
  split; [split|..]; unfold same_react.
  - now intros s.
  - intros s1 s2 s3 H12 H23. congruence.
  - reflexivity.
  - reflexivity.
  - reflexivity.
Qed.

Global Instance same_vault_ambient : Ambient same_vault.
Proof.
  split; [split|..]; unfold same_vault.
  - now intros s.
  - intros s1 s2 s3 H12 H23. congruence.
  - reflexivity.
  - reflexivity.
  - reflexivity.
Qed.

Global Instance same_stored_private_keys_ambient : Ambient same_stored_private_keys.
Proof.
  split; [split|..]; unfold same_stored_private_keys.
  - now intros s.
  - intros s1 s2 s3 H12 H23 id. now rewrite H23.
  - reflexivity.
  - reflexivity.
  - reflexivity.
Qed.

Lemma extends_same_trace (ok : event -> Prop) (s s' : System) :
  trace s' = trace s -> extends ok s s'.
Proof. intros E. exists []. split; [now rewrite app_nil_r | constructor]. Qed.

Lemma extends_refl (ok : event -> Prop) (s : System) : extends ok s s.
Proof. now apply extends_same_trace. Qed.

Lemma extends_trans (ok : event -> Prop) (s1 s2 s3 : System) :
  extends ok s1 s2 -> extends ok s2 s3 -> extends ok s1 s3.
Proof.
  intros (evs1 & E1 & H1) (evs2 & E2 & H2). exists (evs1 ++ evs2). split.
  - now rewrite E2, E1, app_assoc.
  - now apply Forall_app.
Qed.

Global Instance extends_ambient (ok : event -> Prop) : Ambient (extends ok).
Proof.
  split; [split|..].
  - intros s. apply extends_refl.
  - intros s1 s2 s3. apply extends_trans.
  - intros s fs. now apply extends_same_trace.
  - intros s g. now apply extends_same_trace.
  - intros s f. now apply extends_same_trace.
Qed.

Lemma extends_events_since (ok : event -> Prop) (s s' : System) :
  extends ok s s' -> trace s' = trace s ++ events_since s s' /\ Forall ok (events_since s s').
Proof.
  intros (evs & E & Hok). unfold events_since. rewrite E, drop_app_length. now split.
Qed.

(** Logging one event, and the setters. *)
Lemma log_extends (ok : event -> Prop) (e : event) : ok e -> respects (extends ok) (log e).
Proof. intros He s. exists [e]. split; [reflexivity | now constructor]. Qed.

Lemma log_same_react (e : event) : respects same_react (log e).
Proof. intros s. reflexivity. Qed.
Lemma log_same_vault (e : event) : respects same_vault (log e).
Proof. intros s. reflexivity. Qed.
Lemma log_same_stored (e : event) : respects same_stored_private_keys (log e).
Proof. intros s id. reflexivity. Qed.

Create HintDb effects discriminated.

Global Hint Resolve respects_ret respects_throw respects_lift respects_random
  log_same_react log_same_vault log_same_stored : effects.

(** Take a computation apart along its binds, handlers and branches. *)
Ltac effects_step :=
  match goal with
  | |- respects _ (_ ≫= _) => apply respects_bind; [try typeclasses eauto | | intros ?]
  | |- respects _ (try_catch _ _) => apply respects_try_catch; [try typeclasses eauto | | intros ?]
  | |- respects _ (try_finally _ _) => apply respects_try_finally; [try typeclasses eauto | |]
  | |- respects _ (detached _) => apply respects_detached
  | |- respects _ (request _) => apply respects_request; [try typeclasses eauto |]
  | |- respects _ (match ?x with _ => _ end) => destruct x
  | |- respects (extends _) (log _) =>
      apply log_extends; first [exact I | reflexivity | split; eauto]
  | |- respects _ (fun s => (_, s)) => intros ?; cbn [snd]; reflexivity
  end.

Ltac effects := repeat effects_step; eauto with effects.



Ltac simpl_system :=
  unfold log, lift, throw, random, request, lost, sent,
    with_trace, with_entropy, with_faults, with_firestore, with_react, with_auth in *;
  cbn [trace react firestore auth entropy faults tl fst snd users keyVaults
       currentUser userProfile loading inMemVault isDecoyMode] in *.

(** ** The calls the component makes

    Each call keeps a relation that holds across the one event it logs
    (and, for a write, across the change it makes). *)

Section Calls.
Context `{Primitives} `{Host}.
Context (R : System -> System -> Prop) `{!Ambient R}.

Lemma respects_getDocs_users field select value :
  respects R (log (QueryUsers field value)) ->
  respects R (getDocs_users field select value).
Proof. intros. unfold getDocs_users. effects. Qed.

Lemma respects_getDoc_users id :
  respects R (log (GetDoc "users" id)) -> respects R (getDoc_users id).
Proof. intros. unfold getDoc_users. effects. Qed.

Lemma respects_getDoc_keyVaults id :
  respects R (log (GetDoc "keyVaults" id)) -> respects R (getDoc_keyVaults id).
Proof. intros. unfold getDoc_keyVaults. effects. Qed.

Lemma respects_reauthenticate user mail password :
  respects R (log Reauthenticate) ->
  respects R (reauthenticateWithCredential user mail password).
Proof.
  intros. unfold reauthenticateWithCredential. effects.
  intros s. destruct (find_account _ _); [destruct (_ && _)|]; reflexivity.
Qed.

Lemma respects_updatePassword user password :
  respects R (log UpdatePassword) -> respects R (updatePassword user password).
Proof.
  intros. unfold updatePassword. effects. intros s. cbn [snd]. apply ambient_auth.
Qed.

Lemma respects_updateDoc `{!FirestoreBlind R} id fields :
  respects R (log (UpdateDoc id fields)) -> respects R (updateDoc_keyVaults id fields).
Proof.
  intros. unfold updateDoc_keyVaults. effects. intros s.
  destruct (keyVaults (firestore s) !! id); cbn [snd]; [apply firestore_blind | reflexivity].
Qed.

Lemma respects_set_auth_user listener u :
  respects R (listener u) -> respects R (set_auth_user listener u).
Proof.
  intros Hl. unfold set_auth_user. effects. intros s. cbn [snd]. apply ambient_auth.
Qed.

Lemma respects_signIn listener mail password :
  respects R (log (SignIn mail)) -> (forall u, respects R (listener (Some u))) ->
  respects R (signInWithEmailAndPassword listener mail password).
Proof.
  intros Hlog Hl. unfold signInWithEmailAndPassword. effects. intros s.
  destruct (find_account _ _) as [acc|]; [|reflexivity].
  destruct (bool_decide _); [|reflexivity].
  revert s. change (respects R (set_auth_user listener (Some (account_user acc))
                                ≫= fun _ => mret (account_user acc))).
  effects. now apply respects_set_auth_user.
Qed.

Lemma respects_signOut listener :
  respects R (log SignOut) -> respects R (listener None) -> respects R (signOut listener).
Proof.
  intros Hlog Hl. unfold signOut. effects. now apply respects_set_auth_user.
Qed.

Lemma respects_Crypto_hashPasswordForStorage password :
  respects R (log HashPasswordForStorage) ->
  respects R (Crypto_hashPasswordForStorage password).
Proof. intros. unfold Crypto_hashPasswordForStorage. effects. Qed.

Lemma respects_Crypto_deriveMasterKey password salt :
  respects R (log DeriveMasterKey) -> respects R (Crypto_deriveMasterKey password salt).
Proof. intros. unfold Crypto_deriveMasterKey. effects. Qed.

Lemma respects_Crypto_encryptWithAES key data :
  respects R (log (EncryptWithAES key)) -> respects R (Crypto_encryptWithAES key data).
Proof. intros. unfold Crypto_encryptWithAES. effects. Qed.

Lemma respects_Crypto_decryptWithAES key data :
  respects R (log (DecryptWithAES key data)) -> respects R (Crypto_decryptWithAES key data).
Proof. intros. unfold Crypto_decryptWithAES. effects. Qed.

Lemma respects_Crypto_encapSharedSecret pk :
  respects R (log EncapSharedSecret) -> respects R (Crypto_encapSharedSecret pk).
Proof. intros. unfold Crypto_encapSharedSecret. effects. Qed.

Lemma respects_Crypto_decapSharedSecret sk ct :
  respects R (log DecapSharedSecret) -> respects R (Crypto_decapSharedSecret sk ct).
Proof. intros. unfold Crypto_decapSharedSecret. effects. Qed.

Lemma respects_Crypto_importSharedSecret secret :
  respects R (log ImportSharedSecret) -> respects R (Crypto_importSharedSecret secret).
Proof. intros. unfold Crypto_importSharedSecret. effects. Qed.

End Calls.

Global Hint Resolve same_react_ambient same_vault_ambient same_stored_private_keys_ambient
  extends_ambient : effects.
Global Hint Resolve respects_getDocs_users respects_getDoc_users respects_getDoc_keyVaults
  respects_reauthenticate respects_updatePassword respects_updateDoc
  respects_signIn respects_signOut
  respects_Crypto_hashPasswordForStorage respects_Crypto_deriveMasterKey
  respects_Crypto_encryptWithAES respects_Crypto_decryptWithAES
  respects_Crypto_encapSharedSecret respects_Crypto_decapSharedSecret
  respects_Crypto_importSharedSecret : effects.
Global Hint Extern 1 (respects (extends _) (log _)) =>
  apply log_extends; first [exact I | reflexivity | split; eauto] : effects.

Global Instance same_react_blind : FirestoreBlind same_react.
Proof. intros s f. reflexivity. Qed.
Global Instance same_vault_blind : FirestoreBlind same_vault.
Proof. intros s f. reflexivity. Qed.
Global Instance extends_blind (ok : event -> Prop) : FirestoreBlind (extends ok).
Proof. intros s f. now apply extends_same_trace. Qed.
Global Hint Resolve same_react_blind same_vault_blind extends_blind : effects.

(** The setters write the component state and nothing else. *)
Lemma setters_extend (ok : event -> Prop) :
  (forall u, respects (extends ok) (setCurrentUser u))
  /\ (forall p, respects (extends ok) (setUserProfile p))
  /\ (forall b, respects (extends ok) (setLoading b))
  /\ (forall f, respects (extends ok) (updateInMemVault f))
  /\ (forall b, respects (extends ok) (setIsDecoyMode b)).
Proof. repeat split; intros x s; now apply extends_same_trace. Qed.

Lemma setCurrentUser_extends ok u : respects (extends ok) (setCurrentUser u).
Proof. apply setters_extend. Qed.
Lemma setUserProfile_extends ok p : respects (extends ok) (setUserProfile p).
Proof. apply setters_extend. Qed.
Lemma setLoading_extends ok b : respects (extends ok) (setLoading b).
Proof. apply setters_extend. Qed.
Lemma updateInMemVault_extends ok f : respects (extends ok) (updateInMemVault f).
Proof. apply setters_extend. Qed.
Lemma setInMemVault_extends ok v : respects (extends ok) (setInMemVault v).
Proof. apply setters_extend. Qed.
Lemma setIsDecoyMode_extends ok b : respects (extends ok) (setIsDecoyMode b).
Proof. apply setters_extend. Qed.

Lemma setCurrentUser_same_vault u : respects same_vault (setCurrentUser u).
Proof. intros s. reflexivity. Qed.
Lemma setUserProfile_same_vault p : respects same_vault (setUserProfile p).
Proof. intros s. reflexivity. Qed.
Lemma setLoading_same_vault b : respects same_vault (setLoading b).
Proof. intros s. reflexivity. Qed.
Lemma setIsDecoyMode_same_vault b : respects same_vault (setIsDecoyMode b).
Proof. intros s. reflexivity. Qed.

Lemma setCurrentUser_same_stored u : respects same_stored_private_keys (setCurrentUser u).
Proof. intros s id. reflexivity. Qed.
Lemma setUserProfile_same_stored p : respects same_stored_private_keys (setUserProfile p).
Proof. intros s id. reflexivity. Qed.
Lemma setLoading_same_stored b : respects same_stored_private_keys (setLoading b).
Proof. intros s id. reflexivity. Qed.
Lemma updateInMemVault_same_stored f : respects same_stored_private_keys (updateInMemVault f).
Proof. intros s id. reflexivity. Qed.
Lemma setIsDecoyMode_same_stored b : respects same_stored_private_keys (setIsDecoyMode b).
Proof. intros s id. reflexivity. Qed.

Global Hint Resolve setCurrentUser_extends setUserProfile_extends setLoading_extends
  updateInMemVault_extends setInMemVault_extends setIsDecoyMode_extends
  setCurrentUser_same_vault setUserProfile_same_vault setLoading_same_vault
  setIsDecoyMode_same_vault
  setCurrentUser_same_stored setUserProfile_same_stored setLoading_same_stored
  updateInMemVault_same_stored setIsDecoyMode_same_stored : effects.

(** A write that names only [encryptedSharedSecrets] leaves every stored
    [encryptedPrivateKey] as it was. *)
Lemma updateDoc_secrets_same_stored id packed :
  respects same_stored_private_keys
    (updateDoc_keyVaults id (mkKeyVaultUpdate None (Some packed))).
Proof.
  unfold updateDoc_keyVaults. effects. intros s.
  destruct (keyVaults (firestore s) !! id) as [v|] eqn:E; cbn [snd]; [|reflexivity].
  intros id'. unfold stored_private_key. cbn [firestore with_firestore keyVaults].
  destruct (decide (id = id')) as [->|Hne].
  - rewrite lookup_insert_eq, E. reflexivity.
  - now rewrite lookup_insert_ne.
Qed.
Global Hint Resolve updateDoc_secrets_same_stored : effects.

(** ** Failing without a trace in the component state *)

Lemma fails_clean_throw {A} (e : error) : fails_clean (@throw A e).
Proof. intros s e' _. reflexivity. Qed.

Lemma fails_clean_respects {A} (m : M A) : respects same_react m -> fails_clean m.
Proof. intros Hm s e _. apply Hm. Qed.

Lemma fails_clean_never {A} (m : M A) : never_fails m -> fails_clean m.
Proof. intros Hm s e E. specialize (Hm s). rewrite E in Hm. discriminate. Qed.

Lemma fails_clean_bind {A B} (m : M A) (k : A -> M B) :
  respects same_react m -> (forall a, fails_clean (k a)) -> fails_clean (m ≫= k).
Proof.
  intros Hm Hk s e. rewrite bind_eq. specialize (Hm s). unfold same_react in Hm.
  destruct (m s) as [[a|e'] s1]; cbn [fst snd] in *; [|intros _; exact Hm].
  intros E. rewrite (Hk a s1 e E). exact Hm.
Qed.

Lemma fails_clean_try_catch {A} (body : M A) (handler : error -> M A) :
  fails_clean body -> (forall e, respects same_react (handler e)) ->
  fails_clean (try_catch body handler).
Proof.
  intros Hb Hh s e. unfold try_catch. specialize (Hb s).
  destruct (body s) as [[a|e'] s1]; cbn [fst snd] in *; [discriminate|].
  intros _. rewrite (Hh e' s1). now apply (Hb e').
Qed.

Lemma never_fails_bind {A B} (m : M A) (k : A -> M B) :
  never_fails m -> (forall a, never_fails (k a)) -> never_fails (m ≫= k).
Proof.
  intros Hm Hk s. rewrite bind_eq. specialize (Hm s).
  destruct (m s) as [[a|e] s1]; [apply Hk | discriminate].
Qed.

Lemma never_fails_ret {A} (a : A) : never_fails (mret a).
Proof. intros s. reflexivity. Qed.

Lemma never_fails_updateInMemVault f : never_fails (updateInMemVault f).
Proof. intros s. reflexivity. Qed.

(** ** The two components agree outside decoy mode *)

Section Agreement.
Context `{Primitives} `{Host}.

Lemma plain_decapAndSaveKey cl chatId ciphertext :
  AuthContext.decapAndSaveKey cl chatId ciphertext
  = DuressAuthContext.decapAndSaveKey (without_decoy cl) chatId ciphertext.
Proof. reflexivity. Qed.

Lemma plain_encapAndSaveKey cl chatId pk :
  AuthContext.encapAndSaveKey cl chatId pk
  = DuressAuthContext.encapAndSaveKey (without_decoy cl) chatId pk.
Proof. reflexivity. Qed.

Lemma plain_changePassword cl current new :
  AuthContext.changePassword cl current new
  = DuressAuthContext.changePassword (without_decoy cl) current new.
Proof.
  unfold AuthContext.changePassword, DuressAuthContext.changePassword.
  cbn [without_decoy currentUser inMemVault isDecoyMode].
  destruct (currentUser cl) as [user|], (inMemVault cl) as [vault|]; reflexivity.
Qed.

Lemma plain_getChatKey cl chatId :
  AuthContext.getChatKey cl chatId = DuressAuthContext.getChatKey (without_decoy cl) chatId.
Proof. reflexivity. Qed.

End Agreement.

(** ** Shared-secret updates and password rotation *)

Section Updates.
Context `{Primitives} `{Host}.

Lemma store_secrets_never_fails m : never_fails (DuressAuthContext.store_secrets m).
Proof. intros s. reflexivity. Qed.

Lemma decapAndSaveKey_fails_clean cl chatId ciphertext :
  fails_clean (DuressAuthContext.decapAndSaveKey cl chatId ciphertext).
Proof.
  unfold DuressAuthContext.decapAndSaveKey.
  destruct (inMemVault cl) as [vault|]; [|apply fails_clean_throw].
  destruct (currentUser cl) as [user|]; [|apply fails_clean_throw].
  destruct (isDecoyMode cl); [apply fails_clean_throw|].
  apply fails_clean_bind; [eauto with effects | intros secret].
  apply fails_clean_bind; [eauto with effects | intros packed].
  apply fails_clean_bind; [eauto with effects | intros _].
  apply fails_clean_never, store_secrets_never_fails.
Qed.

Lemma encapAndSaveKey_fails_clean cl chatId pk :
  fails_clean (DuressAuthContext.encapAndSaveKey cl chatId pk).
Proof.
  unfold DuressAuthContext.encapAndSaveKey.
  destruct (inMemVault cl) as [vault|]; [|apply fails_clean_throw].
  destruct (currentUser cl) as [user|]; [|apply fails_clean_throw].
  destruct (isDecoyMode cl); [apply fails_clean_throw|].
  apply fails_clean_bind; [eauto with effects | intros [secret ciphertext]].
  apply fails_clean_bind; [eauto with effects | intros packed].
  apply fails_clean_bind; [eauto with effects | intros _].
  apply fails_clean_never, never_fails_bind;
    [apply store_secrets_never_fails | intros _; apply never_fails_ret].
Qed.

End Updates.

Lemma events_since_app (s s' : System) (evs : list event) :
  trace s' = trace s ++ evs -> events_since s s' = evs.
Proof. intros E. unfold events_since. now rewrite E, drop_app_length. Qed.

Section Fulfilled.
Context `{Primitives} `{Host}.

(** What a fulfilled [updateDoc] of the secrets has done. *)
Lemma updateDoc_secrets_fulfilled id packed s s' :
  updateDoc_keyVaults id (mkKeyVaultUpdate None (Some packed)) s = (Ok tt, s') ->
  react s' = react s
  /\ trace s' = trace s ++ [UpdateDoc id (mkKeyVaultUpdate None (Some packed))]
  /\ entropy s' = entropy s
  /\ exists old, keyVaults (firestore s) !! id = Some old
       /\ keyVaults (firestore s')
          = <[id := mkKeyVault (encryptedPrivateKey old) packed]> (keyVaults (firestore s)).
Proof.
  destruct s as [r fs au g fl tr]. unfold updateDoc_keyVaults. rewrite bind_eq. simpl_system.
  destruct (match fl with true :: _ => true | _ => false end); [discriminate|].
  destruct (keyVaults fs !! id) as [old|] eqn:E; [|discriminate].
  intros [= <-]. cbn. repeat split; eauto.
Qed.

(** A fulfilled [decapAndSaveKey]: the secret was recovered, the whole
    new map serialized and encrypted under the master key in memory, the
    one field written, and only then the map in memory replaced. *)
Lemma decapAndSaveKey_fulfilled cl chatId ciphertext s s' :
  DuressAuthContext.decapAndSaveKey cl chatId ciphertext s = (Ok tt, s') ->
  exists vault user secret packed,
    inMemVault cl = Some vault /\ currentUser cl = Some user
    /\ decapSharedSecret (kyberPrivateKey vault) ciphertext = Ok secret
    /\ fst (encryptWithAES (masterKey vault)
              (JSON_stringify (<[chatId := secret]> (sharedSecrets vault))) (entropy s))
       = Ok packed
    /\ events_since s s'
       = [DecapSharedSecret; EncryptWithAES (masterKey vault);
          UpdateDoc (uid user) (mkKeyVaultUpdate None (Some packed))]
    /\ persisted_secrets (uid user) s' = Some packed
    /\ inMemVault (react s')
       = (fun v => mkInMemVault (masterKey v) (kyberPrivateKey v)
                     (<[chatId := secret]> (sharedSecrets vault)))
         <$> inMemVault (react s).
Proof.
  unfold DuressAuthContext.decapAndSaveKey.
  destruct (inMemVault cl) as [vault|]; [|discriminate].
  destruct (currentUser cl) as [user|]; [|discriminate].
  destruct (isDecoyMode cl); [discriminate|].
  destruct s as [r fs au g fl tr].
  rewrite bind_eq. unfold Crypto_decapSharedSecret at 1. rewrite bind_eq. simpl_system.
  destruct (decapSharedSecret _ _) as [secret|e] eqn:Edecap; [|discriminate].
  rewrite bind_eq. unfold Crypto_encryptWithAES at 1. rewrite bind_eq. simpl_system.
  destruct (encryptWithAES _ _ _) as [[packed|e] g'] eqn:Eenc; [|discriminate].
  rewrite bind_eq.
  destruct (updateDoc_keyVaults _ _ _) as [[[]|e] s2] eqn:Eupd; [|discriminate].
  apply updateDoc_secrets_fulfilled in Eupd as (Hreact & Htrace & _ & old & Hold & Hkv).
  cbn [DuressAuthContext.store_secrets updateInMemVault].
  intros [= <-]. exists vault, user, secret, packed. simpl_system.
  split; [reflexivity|]. split; [reflexivity|]. split; [exact Edecap|].
  split; [now rewrite Eenc|]. split; [|split].
  - apply events_since_app. simpl_system. rewrite Htrace. now rewrite <- !app_assoc.
  - unfold persisted_secrets. simpl_system. rewrite Hkv, lookup_insert_eq. reflexivity.
  - rewrite Hreact. now destruct (inMemVault r).
Qed.

Lemma encapAndSaveKey_fulfilled cl chatId pk ciphertext s s' :
  DuressAuthContext.encapAndSaveKey cl chatId pk s = (Ok ciphertext, s') ->
  exists vault user secret packed,
    inMemVault cl = Some vault /\ currentUser cl = Some user
    /\ fst (encapSharedSecret pk (entropy s)) = Ok (secret, ciphertext)
    /\ fst (encryptWithAES (masterKey vault)
              (JSON_stringify (<[chatId := secret]> (sharedSecrets vault)))
              (snd (encapSharedSecret pk (entropy s))))
       = Ok packed
    /\ events_since s s'
       = [EncapSharedSecret; EncryptWithAES (masterKey vault);
          UpdateDoc (uid user) (mkKeyVaultUpdate None (Some packed))]
    /\ persisted_secrets (uid user) s' = Some packed
    /\ inMemVault (react s')
       = (fun v => mkInMemVault (masterKey v) (kyberPrivateKey v)
                     (<[chatId := secret]> (sharedSecrets vault)))
         <$> inMemVault (react s).
Proof.
  unfold DuressAuthContext.encapAndSaveKey.
  destruct (inMemVault cl) as [vault|]; [|discriminate].
  destruct (currentUser cl) as [user|]; [|discriminate].
  destruct (isDecoyMode cl); [discriminate|].
  destruct s as [r fs au g fl tr].
  rewrite bind_eq. unfold Crypto_encapSharedSecret at 1. rewrite bind_eq. simpl_system.
  destruct (encapSharedSecret pk g) as [[[secret ct]|e] g1] eqn:Eencap; [|discriminate].
  rewrite bind_eq. unfold Crypto_encryptWithAES at 1. rewrite bind_eq. simpl_system.
  destruct (encryptWithAES _ _ _) as [[packed|e] g'] eqn:Eenc; [|discriminate].
  rewrite bind_eq.
  destruct (updateDoc_keyVaults _ _ _) as [[[]|e] s2] eqn:Eupd; [|discriminate].
  apply updateDoc_secrets_fulfilled in Eupd as (Hreact & Htrace & _ & old & Hold & Hkv).
  rewrite bind_eq. cbn [DuressAuthContext.store_secrets updateInMemVault].
  intros [= <- <-]. exists vault, user, secret, packed. simpl_system.
  split; [reflexivity|]. split; [reflexivity|]. split; [reflexivity|].
  split; [now rewrite Eenc|]. split; [|split].
  - apply events_since_app. simpl_system. rewrite Htrace. now rewrite <- !app_assoc.
  - unfold persisted_secrets. simpl_system. rewrite Hkv, lookup_insert_eq. reflexivity.
  - rewrite Hreact. now destruct (inMemVault r).
Qed.

End Fulfilled.

Section Writes.
Context `{Primitives} `{Host}.

Lemma decapAndSaveKey_writes cl chatId ciphertext :
  respects (extends secrets_only) (DuressAuthContext.decapAndSaveKey cl chatId ciphertext)
  /\ respects same_stored_private_keys
       (DuressAuthContext.decapAndSaveKey cl chatId ciphertext).
Proof.
  unfold DuressAuthContext.decapAndSaveKey, DuressAuthContext.store_secrets.
  split; effects.
Qed.

Lemma encapAndSaveKey_writes cl chatId pk :
  respects (extends secrets_only) (DuressAuthContext.encapAndSaveKey cl chatId pk)
  /\ respects same_stored_private_keys (DuressAuthContext.encapAndSaveKey cl chatId pk).
Proof.
  unfold DuressAuthContext.encapAndSaveKey, DuressAuthContext.store_secrets.
  split; effects.
Qed.

Lemma changePassword_writes cl current new :
  respects (extends both_fields) (DuressAuthContext.changePassword cl current new).
Proof.
  unfold DuressAuthContext.changePassword. effects.
Qed.

End Writes.

(** ** The claims about updates, rotation and logout *)

Section UpdateClaims.
Context `{Primitives} `{Host}.

Lemma decapAndSaveKey_follows cl chatId ciphertext :
  memory_follows_storage cl (DuressAuthContext.decapAndSaveKey cl chatId ciphertext).
Proof.
  intros s.
  destruct (DuressAuthContext.decapAndSaveKey cl chatId ciphertext s) as [[[]|e] s'] eqn:E.
  - apply decapAndSaveKey_fulfilled in E
      as (vault & user & secret & packed & _ & Huser & _ & _ & Hev & Hstored & _).
    exists user, packed. split; [exact Huser|]. split; [|exact Hstored].
    rewrite Hev. now right; right; left.
  - pose proof (decapAndSaveKey_fails_clean cl chatId ciphertext s e) as Hclean.
    rewrite E in Hclean. now apply Hclean.
Qed.

Lemma encapAndSaveKey_follows cl chatId pk :
  memory_follows_storage cl (DuressAuthContext.encapAndSaveKey cl chatId pk).
Proof.
  intros s.
  destruct (DuressAuthContext.encapAndSaveKey cl chatId pk s) as [[ct|e] s'] eqn:E.
  - apply encapAndSaveKey_fulfilled in E
      as (vault & user & secret & packed & _ & Huser & _ & _ & Hev & Hstored & _).
    exists user, packed. split; [exact Huser|]. split; [|exact Hstored].
    rewrite Hev. now right; right; left.
  - pose proof (encapAndSaveKey_fails_clean cl chatId pk s e) as Hclean.
    rewrite E in Hclean. now apply Hclean.
Qed.



(** C10.  In both components [decapAndSaveKey] and [encapAndSaveKey]
    replace the map in memory only after the write has gone through:
    rejected, they leave the component state as it was; fulfilled, the
    write was requested and the stored record carries what was written. *)
Theorem C10_memory_follows_storage (cl : ReactState) (chatId x : jsstring) :
  memory_follows_storage cl (DuressAuthContext.decapAndSaveKey cl chatId x)
  /\ memory_follows_storage cl (DuressAuthContext.encapAndSaveKey cl chatId x)
  /\ memory_follows_storage cl (AuthContext.decapAndSaveKey cl chatId x)
  /\ memory_follows_storage cl (AuthContext.encapAndSaveKey cl chatId x).
Proof.
  split; [apply decapAndSaveKey_follows|].
  split; [apply encapAndSaveKey_follows|].
  split.
  - rewrite plain_decapAndSaveKey. apply (decapAndSaveKey_follows (without_decoy cl)).
  - rewrite plain_encapAndSaveKey. apply (encapAndSaveKey_follows (without_decoy cl)).
Qed.

(** C9.  Called in decoy mode, [logout] resets the component state
    (user, profile, vault and decoy flag) and does nothing else: no call
    leaves the component.  Called otherwise, it makes the external
    sign-out call. *)
Theorem C9_logout (cl : ReactState) (s : System) :
  if isDecoyMode cl
  then DuressAuthContext.logout cl s = (Ok tt, with_react signed_out_state s)
  else trace (snd (DuressAuthContext.logout cl s)) = trace s ++ [SignOut].
Proof.
  unfold DuressAuthContext.logout. destruct (isDecoyMode cl).
  - reflexivity.
  - destruct s as [r fs au g fl tr]. unfold signOut. rewrite bind_eq. simpl_system.
    destruct (match fl with true :: _ => true | _ => false end); reflexivity.
Qed.

End UpdateClaims.

(** ** Operations on a locked vault, and the decoy session *)

Section Locked.
Context `{Primitives} `{Host}.

(** C3, as the code has it.  When the vault is absent or decoy mode is
    active, [decapAndSaveKey], [encapAndSaveKey] and [changePassword]
    are rejected and [getChatKey] resolves to [null]; none of them makes
    a call or changes anything.  Outside decoy mode the rejections are
    ["Vault locked."] and ["User not fully authenticated."]. *)
Theorem C3_locked_vault_operations
    (cl : ReactState) (chatId x y : jsstring) (s : System) :
  inMemVault cl = None \/ isDecoyMode cl = true ->
  (exists e, DuressAuthContext.decapAndSaveKey cl chatId x s = (Err e, s))
  /\ (exists e, DuressAuthContext.encapAndSaveKey cl chatId x s = (Err e, s))
  /\ (exists e, DuressAuthContext.changePassword cl x y s = (Err e, s))
  /\ DuressAuthContext.getChatKey cl chatId s = (Ok None, s)
  /\ (isDecoyMode cl = false ->
      DuressAuthContext.decapAndSaveKey cl chatId x s = (Err (Error "Vault locked."), s)
      /\ DuressAuthContext.encapAndSaveKey cl chatId x s = (Err (Error "Vault locked."), s)
      /\ DuressAuthContext.changePassword cl x y s
         = (Err (Error "User not fully authenticated."), s)).
Proof.
  intros Hlocked.
  unfold DuressAuthContext.decapAndSaveKey, DuressAuthContext.encapAndSaveKey,
    DuressAuthContext.changePassword, DuressAuthContext.getChatKey.
  destruct (inMemVault cl) as [vault|] eqn:Evault.
  - destruct Hlocked as [|Hdecoy]; [discriminate|]. rewrite Hdecoy.
    destruct (currentUser cl) as [user|].
    + destruct (negb (truthy (email user)));
        repeat split; try (eexists; reflexivity); discriminate.
    + repeat split; try (eexists; reflexivity); discriminate.
  - destruct (currentUser cl) as [user|], (isDecoyMode cl);
      repeat split; try (eexists; reflexivity); discriminate.
Qed.

Lemma call_locked (c : DuressAuthContext.vault_call) (s : System) :
  inMemVault (react s) = None -> DuressAuthContext.call c s = s.
Proof.
  intros Hvault.
  destruct c as [chatId | chatId ct | chatId pk | current new]; cbn [DuressAuthContext.call];
    unfold DuressAuthContext.getChatKey, DuressAuthContext.decapAndSaveKey,
      DuressAuthContext.encapAndSaveKey, DuressAuthContext.changePassword;
    rewrite Hvault.
  - now destruct (isDecoyMode (react s)).
  - reflexivity.
  - reflexivity.
  - now destruct (currentUser (react s)).
Qed.

Lemma calls_locked (cs : list DuressAuthContext.vault_call) (s : System) :
  inMemVault (react s) = None -> DuressAuthContext.calls cs s = s.
Proof.
  intros Hvault. unfold DuressAuthContext.calls.
  induction cs as [|c cs IH]; cbn [fold_left]; [reflexivity|].
  now rewrite call_locked.
Qed.

End Locked.

Section Duress.
Context `{Primitives} `{Host}.

(** The duress branch of [login], run to its end. *)
Lemma login_duress_branch cl email_ password profile s :
  DuressAuthContext.duress_match s email_ password profile ->
  DuressAuthContext.login cl email_ password s
  = (Ok tt,
     with_react (fun _ =>
         mkReactState (Some (mkUser (profile_uid profile) (profile_email profile) true))
                      (Some profile) false None true)
       (with_trace (trace s ++ [QueryUsers "email" (toLowerCase email_);
                                HashPasswordForStorage])
          (sent s))).
Proof.
  intros (Hsent & Hquery & stored & Hhash & Htruthy & Hentered).
  destruct s as [r fs au g fl tr]. unfold lost in Hsent. cbn [faults firestore] in *.
  unfold DuressAuthContext.login, DuressAuthContext.duress_check,
    getDocs_users, Crypto_hashPasswordForStorage, try_catch.
  rewrite !bind_eq. unfold setLoading. simpl_system.
  rewrite !bind_eq. simpl_system. rewrite Hsent, Hquery, Hhash, Htruthy.
  rewrite !bind_eq. simpl_system. rewrite Hentered.
  rewrite bool_decide_eq_true_2 by reflexivity.
  cbn. now rewrite <- app_assoc.
Qed.

(** C1.  When the stored profile for the address carries a duress hash
    and the hash of the entered password equals it, [login] is fulfilled
    in decoy mode with the in-memory vault null, having made two calls
    only, the profile query and the hash of the password: no sign-in, no
    key derivation, no read of the vault record, no decryption; the
    identity provider and the stored documents are as they were.  After
    it, any sequence of vault-dependent operations leaves the whole
    system as it is: decoy mode stays active, the vault stays null, and
    no further call is made. *)
Theorem C1_duress_login_never_unlocks
    (cl : ReactState) (email_ password : jsstring) (profile : UserProfile)
    (s : System) (cs : list DuressAuthContext.vault_call) :
  DuressAuthContext.duress_match s email_ password profile ->
  let s1 := snd (DuressAuthContext.login cl email_ password s) in
  fst (DuressAuthContext.login cl email_ password s) = Ok tt
  /\ isDecoyMode (react s1) = true
  /\ inMemVault (react s1) = None
  /\ auth s1 = auth s /\ firestore s1 = firestore s
  /\ events_since s s1 = [QueryUsers "email" (toLowerCase email_); HashPasswordForStorage]
  /\ Forall decoy_safe (events_since s s1)
  /\ DuressAuthContext.calls cs s1 = s1.
Proof.
  intros Hmatch. cbn zeta. rewrite (login_duress_branch cl email_ password profile s Hmatch).
  cbn [fst snd]. split; [reflexivity|]. split; [reflexivity|]. split; [reflexivity|].
  split; [reflexivity|]. split; [reflexivity|].
  assert (Hev : events_since s
            (with_react (fun _ =>
               mkReactState (Some (mkUser (profile_uid profile) (profile_email profile) true))
                            (Some profile) false None true)
               (with_trace (trace s ++ [QueryUsers "email" (toLowerCase email_);
                                        HashPasswordForStorage]) (sent s)))
          = [QueryUsers "email" (toLowerCase email_); HashPasswordForStorage])
    by now apply events_since_app.
  rewrite Hev. split; [reflexivity|]. split.
  - repeat constructor.
  - now apply calls_locked.
Qed.

End Duress.

(** ** Unlocking the vault at login *)

Lemma events_since_trans (ok1 ok2 : event -> Prop) (s s1 s' : System) :
  extends ok1 s s1 -> extends ok2 s1 s' ->
  events_since s s' = events_since s s1 ++ events_since s1 s'
  /\ Forall ok1 (events_since s s1).
Proof.
  intros (pre & E1 & H1) (post & E2 & H2).
  rewrite (events_since_app s s1 pre E1), (events_since_app s1 s' post E2). split; [|exact H1].
  apply events_since_app. now rewrite E2, E1, app_assoc.
Qed.

Lemma extends_weaken (ok : event -> Prop) (s s' : System) :
  extends ok s s' -> extends (fun _ => True) s s'.
Proof.
  intros (evs & E & _). exists evs. split; [exact E|]. now apply Forall_forall.
Qed.

Section Unlock.
Context `{Primitives} `{Host}.

Lemma harmless_not_failed (s s' : System) :
  extends harmless s s' -> ~ decryption_failed s s'.
Proof.
  intros Hext (key & data & Hin & _).
  apply extends_events_since in Hext as [_ Hall].
  rewrite List.Forall_forall in Hall. exact (Hall _ Hin).
Qed.

Lemma all_or_nothing_quiet {A} decoy (m : M A) :
  respects (extends harmless) m -> all_or_nothing decoy m.
Proof.
  intros Hm s. split.
  - eapply extends_weaken, Hm.
  - intros Hfailed. now apply harmless_not_failed in Hfailed.
Qed.

Lemma all_or_nothing_at_quiet {A} decoy (m : M A) s :
  extends harmless s (snd (m s)) -> all_or_nothing_at decoy m s.
Proof.
  intros Hm. split.
  - eapply extends_weaken, Hm.
  - intros Hfailed. now apply harmless_not_failed in Hfailed.
Qed.

Lemma unlock_failure_later {A} decoy (s s1 s' : System) (r : result A) :
  extends harmless s s1 -> same_vault s s1 -> extends (fun _ => True) s1 s' ->
  unlock_failure decoy s1 r s' -> unlock_failure decoy s r s'.
Proof.
  intros Hpre Hvault Hpost (Hr & Hinst & Hout & Herr).
  split; [exact Hr|]. split; [|split; [|exact Herr]].
  - unfold no_vault_installed in *. rewrite <- Hvault. exact Hinst.
  - unfold logged_out in *. destruct decoy; [exact Hout|].
    destruct (events_since_trans _ _ s s1 s' Hpre Hpost) as [-> _].
    apply in_or_app. now right.
Qed.

Lemma all_or_nothing_bind {A B} decoy (m : M A) (k : A -> M B) :
  respects (extends harmless) m -> respects same_vault m ->
  (forall a, all_or_nothing decoy (k a)) -> all_or_nothing decoy (m ≫= k).
Proof.
  intros Hm Hv Hk s. unfold all_or_nothing_at. rewrite bind_eq.
  specialize (Hm s). specialize (Hv s).
  destruct (m s) as [[a|e] s1]; cbn [fst snd] in *.
  - destruct (Hk a s1) as [Hext Hfail]. split.
    + eapply extends_trans; [eapply extends_weaken, Hm | exact Hext].
    + intros (key & data & Hin & Hbad).
      destruct (events_since_trans _ _ s s1 (snd (k a s1)) Hm Hext) as [Eev Hpre].
      rewrite Eev in Hin. apply in_app_or in Hin as [Hin|Hin].
      * rewrite List.Forall_forall in Hpre. destruct (Hpre _ Hin).
      * eapply unlock_failure_later; eauto. apply Hfail. now exists key, data.
  - split; [eapply extends_weaken, Hm|].
    intros Hfailed. now apply harmless_not_failed in Hfailed.
Qed.

Lemma all_or_nothing_rethrow {A} decoy (m : M A) :
  all_or_nothing decoy m -> all_or_nothing decoy (try_catch m (fun e => throw e)).
Proof. intros Hm s. unfold all_or_nothing_at. rewrite try_catch_rethrow. apply Hm. Qed.

Lemma all_or_nothing_finally {A} decoy (m : M A) (b : bool) :
  all_or_nothing decoy m ->
  all_or_nothing decoy (try_finally m (if b then setLoading false else mret tt)).
Proof.
  intros Hm s. unfold all_or_nothing_at, try_finally. specialize (Hm s).
  unfold all_or_nothing_at in Hm. destruct (m s) as [r s1]. cbn [fst snd] in Hm.
  assert (Hsame : forall s2, s2 = s1 \/ s2 = snd (setLoading false s1) ->
            extends (fun _ => True) s s2
            /\ (decryption_failed s s2 -> unlock_failure decoy s r s2)).
  { intros s2 [->| ->]; [exact Hm|]. destruct Hm as [Hext Hfail]. split.
    - destruct Hext as (evs & E & Hall). now exists evs.
    - intros Hfailed. destruct Hfail as (Hr & Hinst & Hout & Herr); [exact Hfailed|].
      split; [exact Hr|]. split; [exact Hinst|]. split; [|exact Herr].
      unfold logged_out in *. now destruct decoy. }
  destruct b; cbn [fst snd]; apply Hsame; auto.
Qed.


Lemma In_events_since (s s' : System) (evs : list event) (e : event) :
  trace s' = trace s ++ evs -> In e evs -> In e (events_since s s').
Proof. intros E Hin. now rewrite (events_since_app s s' evs E). Qed.

Lemma Crypto_decryptWithAES_eq key data s :
  Crypto_decryptWithAES key data s
  = (decryptWithAES key data, with_trace (trace s ++ [DecryptWithAES key data]) s).
Proof. reflexivity. Qed.

(** What each component's [logout] leaves behind. *)
Lemma logout_logs_out cl : logs_out (isDecoyMode cl) (DuressAuthContext.logout cl).
Proof.
  intros s. cbn zeta. unfold DuressAuthContext.logout. destruct (isDecoyMode cl).
  - repeat split.
  - destruct s as [r fs au g fl tr]. unfold signOut. rewrite bind_eq. simpl_system.
    destruct (match fl with true :: _ => true | _ => false end).
    + split; [reflexivity|]. right. split; reflexivity.
    + split; [reflexivity|]. left. split; reflexivity.
Qed.

Lemma plain_logout_logs_out : logs_out false AuthContext.logout.
Proof.
  intros s. cbn zeta. unfold AuthContext.logout.
  destruct s as [r fs au g fl tr]. unfold signOut. rewrite bind_eq. simpl_system.
  destruct (match fl with true :: _ => true | _ => false end).
  - split; [reflexivity|]. right. split; reflexivity.
  - split; [reflexivity|]. left. split; reflexivity.
Qed.

(** The forced logout followed by ["Invalid password."]. *)
Lemma forced_logout_fails {A} decoy lo s0 s :
  logs_out decoy lo ->
  same_vault s0 s -> extends (fun _ => True) s0 s ->
  let m := lo;; @throw A (Error "Invalid password.") in
  extends (fun _ => True) s0 (snd (m s))
  /\ unlock_failure decoy s0 (fst (m s)) (snd (m s)).
Proof.
  intros Hlo Hvault Hext. cbn zeta. rewrite bind_eq.
  pose proof (Hlo s) as Hspec. cbn zeta in Hspec.
  unfold unlock_failure, no_vault_installed, same_vault in *.
  destruct (lo s) as [[[]|e] s'] eqn:E;
    unfold throw; cbn [fst snd] in *; destruct decoy; cbn [logged_out].
  - destruct Hspec as (_ & Hreact & Htrace). split.
    + destruct Hext as (evs & Eevs & Hall). exists evs. now rewrite Htrace.
    + split; [reflexivity|]. rewrite Hreact. cbn. repeat split; auto.
  - destruct Hspec as (Htrace & [[_ Hnull]|[Hbad _]]); [|discriminate]. split.
    + eapply extends_trans; [exact Hext|]. exists [SignOut]. split; [exact Htrace|].
      now repeat constructor.
    + split; [reflexivity|]. split; [now left|]. split; [|now left].
      destruct Hext as (evs & Eevs & _).
      eapply In_events_since; [rewrite Htrace, Eevs, <- app_assoc; reflexivity|].
      apply in_or_app. right. now left.
  - destruct Hspec as (Hbad & _). discriminate.
  - destruct Hspec as (Htrace & [[Hbad _]|[Herr Hreact]]); [discriminate|]. split.
    + eapply extends_trans; [exact Hext|]. exists [SignOut]. split; [exact Htrace|].
      now repeat constructor.
    + split; [reflexivity|]. split; [right; rewrite Hreact; exact Hvault|]. split.
      * destruct Hext as (evs & Eevs & _).
        eapply In_events_since; [rewrite Htrace, Eevs, <- app_assoc; reflexivity|].
        apply in_or_app. right. now left.
      * right. split; [reflexivity|]. congruence.
Qed.


Lemma handler_all_or_nothing {A B} decoy lo (k : A -> M B) s evs :
  logs_out decoy lo ->
  let s1 := with_trace (trace s ++ evs) s in
  let m := lo;; @throw A (Error "Invalid password.") in
  let out := match m s1 with (Ok a, s') => k a s' | (Err e, s') => (Err e, s') end in
  extends (fun _ => True) s (snd out)
  /\ (decryption_failed s (snd out) -> unlock_failure decoy s (fst out) (snd out)).
Proof.
  intros Hlo. cbn zeta.
  destruct (@forced_logout_fails A decoy lo s (with_trace (trace s ++ evs) s) Hlo)
    as [Hext Hfail].
  { reflexivity. }
  { exists evs. split; [reflexivity | now apply Forall_forall]. }
  cbn zeta in *.
  destruct ((lo;; @throw A (Error "Invalid password."))
              (with_trace (trace s ++ evs) s)) as [[a|e] s'] eqn:E; cbn [fst snd] in *.
  - destruct Hfail as (Hbad & _). discriminate.
  - split; [exact Hext|]. intros _. destruct Hfail as (_ & Hinst & Hout & Herr).
    split; [reflexivity|]. split; [exact Hinst|]. split; [exact Hout|].
    destruct Herr as [[= ->]|[Hd [= ->]]]; [now left | now right].
Qed.

(** The inner [try] of [login], with whatever follows it: a failed
    decryption ends in the forced logout, and a fulfilled one has seen
    both decryptions succeed. *)
Lemma try_decrypt_all_or_nothing {A} decoy lo mk vault
    (k : jsstring * SharedSecretsMap -> M A) :
  logs_out decoy lo ->
  (forall x, respects (extends harmless) (k x)) ->
  all_or_nothing decoy
    (try_catch
       (pKey ← Crypto_decryptWithAES mk (encryptedPrivateKey vault);
        secretsJson ← Crypto_decryptWithAES mk (encryptedSharedSecrets vault);
        secrets ← lift (JSON_parse secretsJson);
        mret (pKey, secrets))
       (fun err => lo;; throw (Error "Invalid password."))
     ≫= k).
Proof.
  intros Hlo Hk s. unfold all_or_nothing_at. rewrite bind_eq.
  unfold try_catch.
  rewrite bind_eq, Crypto_decryptWithAES_eq.
  destruct (decryptWithAES mk (encryptedPrivateKey vault)) as [pKey|e1] eqn:E1.
  2:{ now apply (handler_all_or_nothing decoy lo k s
                  [DecryptWithAES mk (encryptedPrivateKey vault)]). }
  rewrite bind_eq, Crypto_decryptWithAES_eq.
  set (both := [DecryptWithAES mk (encryptedPrivateKey vault);
                DecryptWithAES mk (encryptedSharedSecrets vault)]).
  assert (Eboth : with_trace
            (trace (with_trace (trace s ++ [DecryptWithAES mk (encryptedPrivateKey vault)]) s)
             ++ [DecryptWithAES mk (encryptedSharedSecrets vault)])
            (with_trace (trace s ++ [DecryptWithAES mk (encryptedPrivateKey vault)]) s)
          = with_trace (trace s ++ both) s).
  { unfold with_trace. cbn. now rewrite <- app_assoc. }
  rewrite Eboth. clear Eboth.
  destruct (decryptWithAES mk (encryptedSharedSecrets vault)) as [json|e2] eqn:E2.
  2:{ now apply (handler_all_or_nothing decoy lo k s both). }
  rewrite bind_eq. unfold lift.
  destruct (JSON_parse json) as [secrets|e3] eqn:E3.
  2:{ now apply (handler_all_or_nothing decoy lo k s both). }
  cbn [mret M_ret]. cbn beta iota.
  pose proof (Hk (pKey, secrets) (with_trace (trace s ++ both) s)) as Hext.
  set (s' := snd (k (pKey, secrets) (with_trace (trace s ++ both) s))) in *.
  assert (Hpre : extends (fun _ => True) s (with_trace (trace s ++ both) s)).
  { exists both. split; [reflexivity | now apply Forall_forall]. }
  split.
  - eapply extends_trans; [exact Hpre | eapply extends_weaken, Hext].
  - intros (key & data & Hin & Hbad). exfalso.
    destruct (events_since_trans _ _ s _ s' Hpre Hext) as [Eev _].
    rewrite Eev in Hin. apply in_app_or in Hin as [Hin|Hin].
    + rewrite (events_since_app s (with_trace (trace s ++ both) s) both eq_refl) in Hin.
      destruct Hin as [[= <- <-]|[[= <- <-]|[]]].
      * now rewrite E1 in Hbad.
      * now rewrite E2 in Hbad.
    + apply extends_events_since in Hext as [_ Hall].
      rewrite List.Forall_forall in Hall. exact (Hall _ Hin).
Qed.

End Unlock.

Section LoginClaims.
Context `{Primitives} `{Host}.

Lemma listener_harmless u :
  respects (extends harmless) (DuressAuthContext.onAuthStateChanged u).
Proof. unfold DuressAuthContext.onAuthStateChanged. effects. Qed.

Lemma listener_same_vault u :
  respects same_vault (DuressAuthContext.onAuthStateChanged (Some u)).
Proof. unfold DuressAuthContext.onAuthStateChanged. effects. Qed.

Lemma plain_listener_harmless u :
  respects (extends harmless) (AuthContext.onAuthStateChanged u).
Proof. unfold AuthContext.onAuthStateChanged. effects. Qed.

Lemma plain_listener_same_vault u :
  respects same_vault (AuthContext.onAuthStateChanged (Some u)).
Proof. unfold AuthContext.onAuthStateChanged. effects. Qed.

Lemma duress_check_harmless email_ password :
  respects (extends harmless) (DuressAuthContext.duress_check email_ password).
Proof. unfold DuressAuthContext.duress_check. effects. Qed.

(** The duress check returns from [login], or leaves the vault alone. *)
Lemma duress_check_cases email_ password s :
  fst (DuressAuthContext.duress_check email_ password s) = Ok true
  \/ (fst (DuressAuthContext.duress_check email_ password s) = Ok false
      /\ same_vault s (snd (DuressAuthContext.duress_check email_ password s))).
Proof.
  destruct s as [r fs au g fl tr].
  unfold DuressAuthContext.duress_check, try_catch, getDocs_users,
    Crypto_hashPasswordForStorage.
  rewrite !bind_eq. simpl_system.
  destruct (match fl with true :: _ => true | _ => false end); [right; now split|].
  destruct (query_users _ _ _) as [|profile rest]; [right; now split|].
  destruct (duressHash profile) as [stored|]; [|right; now split].
  destruct (truthy stored); [|right; now split].
  rewrite !bind_eq. simpl_system.
  destruct (hashPasswordForStorage password) as [entered|e]; [|right; now split].
  destruct (bool_decide (entered = stored)); [left|right]; now cbn.
Qed.

Local Hint Resolve listener_harmless listener_same_vault
  plain_listener_harmless plain_listener_same_vault : effects.

Lemma real_login_all_or_nothing cl email_ password :
  all_or_nothing (isDecoyMode cl) (DuressAuthContext.real_login cl email_ password).
Proof.
  unfold DuressAuthContext.real_login.
  apply all_or_nothing_finally, all_or_nothing_rethrow.
  apply all_or_nothing_bind; [effects | effects | intros user]. cbn zeta.
  apply all_or_nothing_bind; [effects | effects | intros mk].
  apply all_or_nothing_bind; [effects | effects | intros profile].
  apply all_or_nothing_bind; [effects | effects | intros [vault|]].
  - apply (try_decrypt_all_or_nothing (isDecoyMode cl) (DuressAuthContext.logout cl)).
    + apply logout_logs_out.
    + intros [pKey secrets]. effects.
  - apply all_or_nothing_quiet. effects.
Qed.

Lemma login_all_or_nothing cl email_ password :
  all_or_nothing (isDecoyMode cl) (DuressAuthContext.login cl email_ password).
Proof.
  unfold DuressAuthContext.login.
  apply all_or_nothing_bind; [effects | effects | intros _].
  intros s. unfold all_or_nothing_at. rewrite bind_eq.
  pose proof (duress_check_harmless email_ password s) as Hext.
  destruct (duress_check_cases email_ password s) as [Hret|[Hret Hvault]];
    destruct (DuressAuthContext.duress_check email_ password s) as [r s1];
    cbn [fst snd] in *; subst r.
  - cbn [mret M_ret snd fst]. split; [eapply extends_weaken, Hext|].
    intros Hfailed. now apply harmless_not_failed in Hfailed.
  - destruct (real_login_all_or_nothing cl email_ password s1) as [Hpost Hfail]. split.
    + eapply extends_trans; [eapply extends_weaken, Hext | exact Hpost].
    + intros (key & data & Hin & Hbad).
      destruct (events_since_trans _ _ s s1 _ Hext Hpost) as [Eev Hpre].
      rewrite Eev in Hin. apply in_app_or in Hin as [Hin|Hin].
      * rewrite List.Forall_forall in Hpre. destruct (Hpre _ Hin).
      * eapply unlock_failure_later; eauto. apply Hfail. now exists key, data.
Qed.

Lemma plain_login_all_or_nothing email_ password :
  all_or_nothing false (AuthContext.login email_ password).
Proof.
  unfold AuthContext.login.
  apply all_or_nothing_bind; [effects | effects | intros _].
  apply (all_or_nothing_finally false _ true), all_or_nothing_rethrow.
  apply all_or_nothing_bind; [effects | effects | intros user]. cbn zeta.
  apply all_or_nothing_bind; [effects | effects | intros mk].
  apply all_or_nothing_bind; [effects | effects | intros profileDoc].
  apply all_or_nothing_bind; [effects | effects | intros vaultDoc].
  destruct profileDoc as [profile|], vaultDoc as [vault|];
    try solve [apply all_or_nothing_quiet; effects].
  apply (try_decrypt_all_or_nothing false AuthContext.logout).
  - apply plain_logout_logs_out.
  - intros [pKey secrets]. effects.
Qed.


End LoginClaims.


(** ** The claims at work on the sample account *)

Lemma run_eq {A} (m : M A) (s : System) (r : result A) :
  fst (m s) = r -> m s = (r, snd (m s)).
Proof. intros <-. apply surjective_pairing. Defined.

Lemma C1_duress_login_never_unlocks_witness :
  fst (DuressAuthContext.login Demo.fresh Demo.alice_email Demo.alice_duress_password
         Demo.signed_out) = Ok tt
  /\ isDecoyMode (react Demo.decoy) = true
  /\ inMemVault (react Demo.decoy) = None
  /\ auth Demo.decoy = auth Demo.signed_out /\ firestore Demo.decoy = firestore Demo.signed_out
  /\ events_since Demo.signed_out Demo.decoy
     = [QueryUsers "email" (toLowerCase Demo.alice_email); HashPasswordForStorage]
  /\ Forall decoy_safe (events_since Demo.signed_out Demo.decoy)
  /\ DuressAuthContext.calls
       [DuressAuthContext.CallGetChatKey Demo.chat;
        DuressAuthContext.CallDecapAndSaveKey Demo.chat Demo.kem_ciphertext;
        DuressAuthContext.CallEncapAndSaveKey Demo.chat (kyberPublicKey Demo.alice_profile);
        DuressAuthContext.CallChangePassword Demo.alice_duress_password Demo.alice_password]
       Demo.decoy
     = Demo.decoy.
Proof.
  apply (C1_duress_login_never_unlocks Demo.fresh Demo.alice_email
           Demo.alice_duress_password Demo.alice_profile Demo.signed_out).
  split; [reflexivity|]. split; [vm_compute; reflexivity|].
  eexists. split; [reflexivity|]. split; vm_compute; reflexivity.
Defined.



Lemma C3_locked_vault_operations_witness :
  (exists e, DuressAuthContext.decapAndSaveKey (react Demo.decoy) Demo.chat
               Demo.kem_ciphertext Demo.decoy = (Err e, Demo.decoy))
  /\ (exists e, DuressAuthContext.encapAndSaveKey (react Demo.decoy) Demo.chat
                  Demo.kem_ciphertext Demo.decoy = (Err e, Demo.decoy))
  /\ (exists e, DuressAuthContext.changePassword (react Demo.decoy) Demo.kem_ciphertext
                  Demo.alice_password Demo.decoy = (Err e, Demo.decoy))
  /\ DuressAuthContext.getChatKey (react Demo.decoy) Demo.chat Demo.decoy
     = (Ok None, Demo.decoy)
  /\ (isDecoyMode (react Demo.decoy) = false ->
      DuressAuthContext.decapAndSaveKey (react Demo.decoy) Demo.chat Demo.kem_ciphertext
        Demo.decoy = (Err (Error "Vault locked."), Demo.decoy)
      /\ DuressAuthContext.encapAndSaveKey (react Demo.decoy) Demo.chat Demo.kem_ciphertext
           Demo.decoy = (Err (Error "Vault locked."), Demo.decoy)
      /\ DuressAuthContext.changePassword (react Demo.decoy) Demo.kem_ciphertext
           Demo.alice_password Demo.decoy
         = (Err (Error "User not fully authenticated."), Demo.decoy)).
Proof.
  apply (C3_locked_vault_operations (react Demo.decoy) Demo.chat Demo.kem_ciphertext
           Demo.alice_password Demo.decoy).
  left. vm_compute. reflexivity.
Defined.

(** C3 fails as stated: with the vault absent, outside decoy mode and in
    it, [getChatKey] is fulfilled with [null]; it is not rejected. *)
Lemma C3_getChatKey_resolves_to_null :
  fst (DuressAuthContext.getChatKey Demo.fresh Demo.chat Demo.signed_out) = Ok None
  /\ fst (DuressAuthContext.getChatKey (react Demo.decoy) Demo.chat Demo.decoy) = Ok None
  /\ is_ok (fst (DuressAuthContext.getChatKey Demo.fresh Demo.chat Demo.signed_out)) = true.
Proof. vm_compute. repeat split; reflexivity. Qed.

(** In the decoy session the rejection of [decapAndSaveKey] is the one of
    a locked vault, the guard on the vault standing before the guard on
    decoy mode. *)
Example decoy_decap_says_locked :
  fst (DuressAuthContext.decapAndSaveKey (react Demo.decoy) Demo.chat Demo.kem_ciphertext
         Demo.decoy)
  = Err (Error "Vault locked.").
Proof. vm_compute. reflexivity. Qed.



(** After that failed rotation the stored record is already encrypted
    under the new key, while the provider still has the old password. *)
Example failed_rotation_has_rewritten_record :
  let s' := snd (DuressAuthContext.changePassword (react Demo.flaky) Demo.alice_password
                   (js "correcthorse2") Demo.flaky) in
  keyVaults (firestore s') !! uid Demo.alice <> keyVaults (firestore Demo.flaky) !! uid Demo.alice
  /\ accounts (auth s') = accounts (auth Demo.flaky).
Proof. vm_compute. split; [discriminate | reflexivity]. Qed.
